(** * Annuity liability model: a shallow embedding of [model.py]

    The model is a family of time-indexed series (age, mortality,
    survivorship, guarantee flag, payments, expenses, present values)
    defined by recurrences on the month index [t].

    Conventions of the embedding.
    - The month index [t] is a [nat]; every recursive call of the source is
      at [t-1] or [t-12] and is guarded so that the index stays non-negative.
    - The integer-valued policy fields are [Z]; [//] and [%] are [Z.div]
      and [Z.modulo] (both round towards minus infinity, as in Python).
      The fields reach the model as floats, so a zero divisor raises
      nothing: [//] gives an infinity and [%] gives [nan], kept as the
      special values of [npfloat].
    - [float] values are idealised as real numbers [R]: rounding is not
      modelled.  A float that is infinite or [nan] is no real number: a
      computation that produces one ends in [NotFinite], and the embedding
      follows the program no further.  A negative float raised to the power
      [1/12] is a [complex] in Python; this is kept as a separate
      constructor of [pynum], because [min] refuses to order it.
    - A Python exception is a value of [pyerror]; a computation that may
      raise returns a [result]. *)

From Equations Require Import Equations.
From Stdlib Require Import ZArith QArith Reals Lia Lra List String Bool.
From Stdlib Require Import DecimalString DecimalZ DecimalPos.
Import ListNotations.

Open Scope Z_scope.

(** ** Python values and exceptions *)

Module Py.

Inductive pyerror : Type :=
| LookupError (table : string)
| IndexError
| TypeError (msg : string)
| ValueError (msg : string).

Inductive result (A : Type) : Type :=
| Ok (a : A)
| Raise (e : pyerror)
| NotFinite.
Arguments Ok {A} a.
Arguments Raise {A} e.
Arguments NotFinite {A}.

Definition bind {A B : Type} (m : result A) (k : A -> result B) : result B :=
  match m with
  | Ok a => k a
  | Raise e => Raise e
  | NotFinite => NotFinite
  end.

(** A keyed accessor ([get_value]) fails when the key is absent. *)
Definition lookup {A : Type} (table : string) (o : option A) : result A :=
  match o with
  | Some a => Ok a
  | None => Raise (LookupError table)
  end.

(** [mapM f ts]: a list comprehension whose body may raise. *)
Fixpoint mapM {A B : Type} (f : A -> result B) (l : list A) : result (list B) :=
  match l with
  | [] => Ok []
  | a :: l' =>
      bind (f a) (fun b => bind (mapM f l') (fun bs => Ok (b :: bs)))
  end.

(** A float that holds an integer, or one of the special values. *)
Inductive npfloat : Type :=
| Finite (z : Z)
| PosInf
| NegInf
| NaN.

(** [a // b] on integer-valued floats; a zero divisor gives an infinity
    of the sign of [a], or [nan] for [0 // 0]. *)
Definition floordiv (a b : Z) : npfloat :=
  if b =? 0 then
    if 0 <? a then PosInf else if a <? 0 then NegInf else NaN
  else Finite (a / b).

(** [a % b] with an integer-valued [a]: [nan] for a zero divisor; for an
    infinite divisor, [a] itself when it has the divisor's sign or is 0,
    and the divisor otherwise. *)
Definition mod_ (a : Z) (b : npfloat) : npfloat :=
  match b with
  | Finite z => if z =? 0 then NaN else Finite (a mod z)
  | PosInf => if 0 <=? a then Finite a else PosInf
  | NegInf => if a <=? 0 then Finite a else NegInf
  | NaN => NaN
  end.

(** [x == 0] on a float: false for the special values. *)
Definition is_zero (x : npfloat) : bool :=
  match x with
  | Finite z => z =? 0
  | _ => false
  end.

(** [a / b] with a float numerator and an integer-valued denominator; a
    zero denominator gives an infinity or [nan]. *)
Definition truediv (a : R) (b : Z) : result R :=
  if b =? 0 then NotFinite else Ok (a / IZR b)%R.

(** [int(q)] truncates towards zero. *)
Definition int_of_Q (q : Q) : Z := Z.quot (Qnum q) (Zpos (Qden q)).

(** [str(n)] for an integer. *)
Definition str (n : Z) : string := NilZero.string_of_int (Z.to_int n).

(** A number produced by float arithmetic: a float, or a complex. *)
Inductive pynum : Type :=
| PyFloat (x : R)
| PyComplex (re im : R).

Definition is_complex (a : pynum) : bool :=
  match a with PyFloat _ => false | PyComplex _ _ => true end.

Definition re_part (a : pynum) : R :=
  match a with PyFloat x => x | PyComplex re _ => re end.

Definition im_part (a : pynum) : R :=
  match a with PyFloat _ => 0%R | PyComplex _ im => im end.

Definition sub (a b : pynum) : pynum :=
  match a, b with
  | PyFloat x, PyFloat y => PyFloat (x - y)
  | _, _ => PyComplex (re_part a - re_part b) (im_part a - im_part b)
  end.

Definition mul (a b : pynum) : pynum :=
  match a, b with
  | PyFloat x, PyFloat y => PyFloat (x * y)
  | _, _ =>
      PyComplex (re_part a * re_part b - im_part a * im_part b)
                (re_part a * im_part b + im_part a * re_part b)
  end.

(** [x ** (1 / 12)] for a float [x]: the real twelfth root of a
    non-negative base, the principal complex root of a negative one. *)
Definition pow_twelfth (x : R) : pynum :=
  if Rlt_dec x 0 then
    PyComplex (Rpower (- x) (/ 12) * cos (PI / 12))
              (Rpower (- x) (/ 12) * sin (PI / 12))
  else if Req_dec_T x 0 then PyFloat 0
  else PyFloat (Rpower x (/ 12)).

(** [min(a, b)] with a float [a]: [b] when [b < a], else [a]; a complex
    operand cannot be ordered. *)
Definition min_ (a : R) (b : pynum) : result R :=
  match b with
  | PyFloat y => Ok (if Rlt_dec y a then y else a)
  | PyComplex _ _ =>
      Raise (TypeError "'<' not supported between instances of 'complex' and 'float'")
  end.

(** [x + y] on two numpy arrays: pointwise, a one-element array being
    broadcast; other shapes do not match. *)
Fixpoint add_pointwise (xs ys : list R) : list R :=
  match xs, ys with
  | x :: xs', y :: ys' => (x + y)%R :: add_pointwise xs' ys'
  | _, _ => []
  end.

Definition np_add (xs ys : list R) : result (list R) :=
  if (List.length xs =? List.length ys)%nat then Ok (add_pointwise xs ys)
  else match xs, ys with
       | [x], _ => Ok (map (fun y => (x + y)%R) ys)
       | _, [y] => Ok (map (fun x => (x + y)%R) xs)
       | _, _ => Raise (ValueError "operands could not be broadcast together")
       end.

(** [series(t)] on an array variable. *)
Definition at_t (series : result (list R)) (t : nat) : result R :=
  bind series (fun xs =>
    match nth_error xs t with
    | Some x => Ok x
    | None => Raise IndexError
    end).

End Py.
Import Py.

Declare Scope py_scope.
Delimit Scope py_scope with py.
Notation "x <- m ;; k" := (bind m (fun x => k))
  (at level 61, m at next level, right associativity) : py_scope.
Open Scope py_scope.

(** ** Policy and assumption set *)

Inductive sex : Type := male | female.

Record Policy : Type := {
  age_at_entry : Z;
  gender : Z;
  initial_guarantee_term : Z;
  initial_annuity : R;
  escalation_type : Z;
  escalation_rate : R;
  annuity_payment_frequency : Z;
  duration_IF : Z
}.

Record Assumption : Type := {
  max_mortality_age : Z;
  mortality_base_table : Z -> sex -> option R;
  mortality_overlay : sex -> option R;
  expense_renewal_expense : option R;
  expense_inflation_margin : option R;
  inflation_forward : Z -> option R;
  yield_curve_forward : Z -> option R;
  investment_expense : R
}.

(** ** The series *)

Section Model.

Variable policy : Policy.
Variable assumption : Assumption.

(** [settings["T_MAX_CALCULATION"]] *)
Variable projection_length : nat.

(** The discounting primitive of the framework. *)
Variable discount : list R -> list pynum -> list R.

(** ["male" if gender() == 0 else "female"] *)
Definition sex_key : sex :=
  if policy.(gender) =? 0 then male else female.

Definition mortality_overlay_factor : result R :=
  lookup "mortality_overlay" (assumption.(mortality_overlay) sex_key).

Definition base_renewal_expense : result R :=
  lookup "expense" assumption.(expense_renewal_expense).

Definition renewal_expense_inflation_margin : result R :=
  lookup "expense" assumption.(expense_inflation_margin).

Definition initial_annuity_per_payment_period : result R :=
  truediv policy.(initial_annuity) policy.(annuity_payment_frequency).

(** *** Mortality and survival *)

Equations? current_age (t : nat) : Z by wf t lt :=
  current_age t :=
    match lt_dec t 12 with
    | left _ =>
        int_of_Q (inject_Z policy.(age_at_entry)
                  + inject_Z (policy.(duration_IF) + Z.of_nat t) / inject_Z 12)%Q
    | right _ => current_age (t - 12) + 1
    end.
Proof. lia. Qed.

(** The part of [death_rate] after the short-circuit. *)
Definition death_rate_lookup (t : nat) : result R :=
  if current_age t <=? assumption.(max_mortality_age) then
    q_x <- lookup "mortality_base_table"
             (assumption.(mortality_base_table) (current_age t) sex_key) ;;
    let q_x_monthly := sub (PyFloat 1) (pow_twelfth (1 - q_x)) in
    factor <- mortality_overlay_factor ;;
    min_ 1 (mul q_x_monthly (PyFloat factor))
  else Ok 1%R.

Fixpoint death_rate (t : nat) : result R :=
  match t with
  | S t' =>
      if current_age t =? current_age t' then death_rate t'
      else death_rate_lookup t
  | O => death_rate_lookup t
  end.

(** The monthly rate recomputed from the tables at [t], without the
    short-circuit: [min(1.0, (1 - (1 - qx)^(1/12)) * overlay)]. *)
Definition death_rate_direct (t : nat) : result R :=
  q_x <- lookup "mortality_base_table"
           (assumption.(mortality_base_table) (current_age t) sex_key) ;;
  factor <- mortality_overlay_factor ;;
  min_ 1 (mul (sub (PyFloat 1) (pow_twelfth (1 - q_x))) (PyFloat factor)).

(** The mortality tables serve month [t]: when [current_age t] is within
    [max_mortality_age], the base table holds a probability for that age
    and the overlay table holds a factor that is not negative.  Beyond
    [max_mortality_age] no table is read. *)
Definition mortality_valid_at (t : nat) : Prop :=
  current_age t <= assumption.(max_mortality_age) ->
  (exists q,
      assumption.(mortality_base_table) (current_age t) sex_key = Some q
      /\ (0 <= q <= 1)%R)
  /\ (exists f,
      assumption.(mortality_overlay) sex_key = Some f /\ (0 <= f)%R).

(** The tables serve every month before [t]. *)
Definition mortality_valid_before (t : nat) : Prop :=
  forall u, (u < t)%nat -> mortality_valid_at u.

Fixpoint expected_number_of_policies_IF (t : nat) : result R :=
  match t with
  | O => Ok 1%R
  | S t' =>
      previous <- expected_number_of_policies_IF t' ;;
      q <- death_rate t' ;;
      Ok (previous * (1 - q))%R
  end.

(** *** Guarantee period *)

Fixpoint within_guarantee_period (t : nat) : Z :=
  let duration_at_t := policy.(duration_IF) + Z.of_nat t in
  match t with
  | S t' =>
      if within_guarantee_period t' =? 0 then 0
      else Z.b2z (duration_at_t <? policy.(initial_guarantee_term))
  | O => Z.b2z (duration_at_t <? policy.(initial_guarantee_term))
  end.

Definition within_guarantee_period_array : list Z :=
  map (fun t => Z.b2z (policy.(duration_IF) + Z.of_nat t
                       <? policy.(initial_guarantee_term)))
      (seq 0 (projection_length + 1)).

(** *** Annuity benefits *)

(** [t] is a payment month: the payment interval [12 // frequency] is
    defined and not zero, and it divides [duration_IF + t]. *)
Definition payment_month (t : nat) : Prop :=
  policy.(annuity_payment_frequency) <> 0
  /\ 12 / policy.(annuity_payment_frequency) <> 0
  /\ (policy.(duration_IF) + Z.of_nat t)
       mod (12 / policy.(annuity_payment_frequency)) = 0.

Equations? annuity_payment_per_policy (t : nat) : result R by wf t lt :=
  annuity_payment_per_policy t :=
    let duration_at_t := policy.(duration_IF) + Z.of_nat t in
    let payment_interval := floordiv 12 policy.(annuity_payment_frequency) in
    let is_payment_month := is_zero (mod_ duration_at_t payment_interval) in
    if negb is_payment_month then Ok 0%R
    else if policy.(escalation_type) =? 0 then
      truediv policy.(initial_annuity) policy.(annuity_payment_frequency)
    else if policy.(escalation_type) =? 1 then
      match lt_dec t 12 with
      | left _ => initial_annuity_per_payment_period
      | right _ =>
          previous_payment <- annuity_payment_per_policy (t - 12) ;;
          Ok (previous_payment * (1 + policy.(escalation_rate)))%R
      end
    else if policy.(escalation_type) =? 2 then
      match lt_dec t 12 with
      | left _ => initial_annuity_per_payment_period
      | right _ =>
          previous_payment <- annuity_payment_per_policy (t - 12) ;;
          inflation <- lookup "inflation_forward"
                         (assumption.(inflation_forward) (Z.of_nat t - 12)) ;;
          Ok (previous_payment * (1 + inflation))%R
      end
    else
      Raise (ValueError ("Unsupported escalation_type: "
                         ++ str policy.(escalation_type))).
Proof. all: lia. Qed.

Definition expected_annuity_payment (t : nat) : result R :=
  if negb (within_guarantee_period t =? 0) then annuity_payment_per_policy t
  else
    payment <- annuity_payment_per_policy t ;;
    in_force <- expected_number_of_policies_IF t ;;
    Ok (payment * in_force)%R.

(** *** Renewal expenses *)

Equations? renewal_expense_per_policy (t : nat) : result R by wf t lt :=
  renewal_expense_per_policy t :=
    let duration_at_t := policy.(duration_IF) + Z.of_nat t in
    if negb (duration_at_t mod 12 =? 0) then Ok 0%R
    else
      match lt_dec t 12 with
      | left _ => base_renewal_expense
      | right _ =>
          previous_expense <- renewal_expense_per_policy (t - 12) ;;
          inflation <- lookup "inflation_forward"
                         (assumption.(inflation_forward) (Z.of_nat t - 12)) ;;
          margin <- renewal_expense_inflation_margin ;;
          Ok (previous_expense * (1 + inflation + margin))%R
      end.
Proof. lia. Qed.

Definition expected_renewal_expense_payment (t : nat) : result R :=
  expense <- renewal_expense_per_policy t ;;
  in_force <- expected_number_of_policies_IF t ;;
  Ok (expense * in_force)%R.

(** *** Discounted values *)

(** A time series called without an index: its values at [0 .. T]. *)
Definition series (f : nat -> result R) : result (list R) :=
  mapM f (seq 0 (projection_length + 1)).

(** The list is built first; the float array that stores it then refuses
    a complex factor. *)
Definition discount_rate : result (list pynum) :=
  factors <- mapM (fun t =>
                     rate <- lookup "yield_curve_forward"
                               (assumption.(yield_curve_forward)
                                  (Z.of_nat t)) ;;
                     Ok (pow_twelfth (1 + rate)))
                  (seq 0 (projection_length + 1)) ;;
  if existsb is_complex factors then
    Raise (TypeError "float() argument must be a string or a real number, not 'complex'")
  else Ok factors.

Definition EPV_annuity_benefit : result (list R) :=
  cash_flows <- series expected_annuity_payment ;;
  rates <- discount_rate ;;
  Ok (discount cash_flows rates).

Definition EPV_renewal_expenses : result (list R) :=
  cash_flows <- series expected_renewal_expense_payment ;;
  rates <- discount_rate ;;
  Ok (discount cash_flows rates).

Definition EPV_liability_gross : result (list R) :=
  benefit <- EPV_annuity_benefit ;;
  renewal <- EPV_renewal_expenses ;;
  np_add benefit renewal.

(** *** Investment expenses *)

Definition investment_expense_payment (t : nat) : result R :=
  let investment_expense_rate := assumption.(investment_expense) in
  gross <- at_t EPV_liability_gross t ;;
  Ok (gross * investment_expense_rate)%R.

Definition EPV_investment_expenses : result (list R) :=
  cash_flows <- series investment_expense_payment ;;
  rates <- discount_rate ;;
  Ok (discount cash_flows rates).

Definition EPV_total_expenses : result (list R) :=
  renewal <- EPV_renewal_expenses ;;
  investment <- EPV_investment_expenses ;;
  np_add renewal investment.

Definition EPV_liability : result (list R) :=
  benefit <- EPV_annuity_benefit ;;
  expenses <- EPV_total_expenses ;;
  np_add benefit expenses.

Definition liability : result R :=
  at_t EPV_liability 0.

End Model.

(** ** Sample data *)

Definition sample_policy : Policy := {|
  age_at_entry := 65;
  gender := 0;
  initial_guarantee_term := 24;
  initial_annuity := 1200;
  escalation_type := 1;
  escalation_rate := 3 / 100;
  annuity_payment_frequency := 1;
  duration_IF := 0
|}.

Definition sample_assumption : Assumption := {|
  max_mortality_age := 110;
  mortality_base_table := fun _ _ => Some (1 / 100)%R;
  mortality_overlay := fun _ => Some 1%R;
  expense_renewal_expense := Some 50%R;
  expense_inflation_margin := Some (1 / 100)%R;
  inflation_forward := fun _ => Some (2 / 100)%R;
  yield_curve_forward := fun _ => Some (3 / 100)%R;
  investment_expense := (1 / 1000)%R
|}.

(** Tables with certain death at every age and an overlay factor of -1. *)
Definition negative_overlay_assumption : Assumption := {|
  max_mortality_age := 110;
  mortality_base_table := fun _ _ => Some 1%R;
  mortality_overlay := fun _ => Some (-1)%R;
  expense_renewal_expense := Some 50%R;
  expense_inflation_margin := Some (1 / 100)%R;
  inflation_forward := fun _ => Some (2 / 100)%R;
  yield_curve_forward := fun _ => Some (3 / 100)%R;
  investment_expense := (1 / 1000)%R
|}.

(** An annual policy whose escalation type is none of 0, 1, 2. *)
Definition unsupported_policy : Policy := {|
  age_at_entry := 65;
  gender := 0;
  initial_guarantee_term := 24;
  initial_annuity := 1200;
  escalation_type := 3;
  escalation_rate := 3 / 100;
  annuity_payment_frequency := 1;
  duration_IF := 0
|}.

(** A monthly policy without escalation, valued 7 months after
    commencement. *)
Definition monthly_policy : Policy := {|
  age_at_entry := 70;
  gender := 1;
  initial_guarantee_term := 60;
  initial_annuity := 1200;
  escalation_type := 0;
  escalation_rate := 0;
  annuity_payment_frequency := 12;
  duration_IF := 7
|}.

(** A quarterly policy with inflation-linked escalation. *)
Definition indexed_policy : Policy := {|
  age_at_entry := 60;
  gender := 0;
  initial_guarantee_term := 0;
  initial_annuity := 4000;
  escalation_type := 2;
  escalation_rate := 0;
  annuity_payment_frequency := 4;
  duration_IF := 0
|}.

(** A policy whose payment frequency exceeds 12. *)
Definition weekly_policy : Policy := {|
  age_at_entry := 60;
  gender := 0;
  initial_guarantee_term := 0;
  initial_annuity := 5200;
  escalation_type := 0;
  escalation_rate := 0;
  annuity_payment_frequency := 52;
  duration_IF := 0
|}.

(** A policy whose payment frequency is 0. *)
Definition unpaid_policy : Policy := {|
  age_at_entry := 60;
  gender := 0;
  initial_guarantee_term := 0;
  initial_annuity := 5200;
  escalation_type := 0;
  escalation_rate := 0;
  annuity_payment_frequency := 0;
  duration_IF := 0
|}.

(** An assumption set whose tables hold no entry at all. *)
Definition empty_assumption : Assumption := {|
  max_mortality_age := 110;
  mortality_base_table := fun _ _ => None;
  mortality_overlay := fun _ => None;
  expense_renewal_expense := None;
  expense_inflation_margin := None;
  inflation_forward := fun _ => None;
  yield_curve_forward := fun _ => None;
  investment_expense := 0%R
|}.

(** Modelled from the spec: the discounting primitive [discount], which the
    model imports from its framework.  Its contract reads
    [pv[t] = sum over s >= t of cf[s] / product over k in t..s of df[k]],
    which is the backward recurrence [pv[t] = (cf[t] + pv[t+1]) / df[t]]
    with nothing after the last index.  A factor is read through its real
    part, and a missing factor counts as 1. *)
Fixpoint discount_contract (cash_flows : list R) (factors : list pynum)
  : list R :=
  match cash_flows with
  | [] => []
  | c :: cash_flows' =>
      let later := discount_contract cash_flows' (tl factors) in
      ((c + hd 0 later) / re_part (hd (PyFloat 1) factors))%R :: later
  end.

(** ** Properties *)

Section CurrentAge.

Variable policy : Policy.

Lemma int_of_Q_months (a n : Z) :
  int_of_Q (inject_Z a + inject_Z n / inject_Z 12)%Q = Z.quot (a * 12 + n) 12.
Proof.
  unfold int_of_Q. cbn.
  rewrite !Z.mul_1_r. reflexivity.
Qed.

Lemma current_age_base (t : nat) :
  (t < 12)%nat ->
  current_age policy t =
  Z.quot (policy.(age_at_entry) * 12 + (policy.(duration_IF) + Z.of_nat t)) 12.
Proof.
  intros Ht. rewrite current_age_equation_1.
  destruct (lt_dec t 12) as [_ | Hge]; [apply int_of_Q_months | contradiction].
Qed.

Lemma current_age_step (t : nat) :
  (12 <= t)%nat -> current_age policy t = current_age policy (t - 12) + 1.
Proof.
  intros Ht. rewrite current_age_equation_1.
  destruct (lt_dec t 12) as [Hlt | _]; [lia | reflexivity].
Qed.

Lemma current_age_plus_12 (t : nat) :
  current_age policy (t + 12) = current_age policy t + 1.
Proof.
  rewrite current_age_step by lia.
  replace (t + 12 - 12)%nat with t by lia. reflexivity.
Qed.

Lemma quot_12_div (n : Z) :
  Z.quot n 12 = if 0 <=? n then n / 12 else - ((- n) / 12).
Proof.
  destruct (Z.leb_spec 0 n) as [H | H].
  - apply Z.quot_div_nonneg; lia.
  - replace n with (- - n) at 1 by lia.
    rewrite Z.quot_opp_l by lia.
    rewrite Z.quot_div_nonneg by lia. reflexivity.
Qed.

Lemma quot_12_mono (n m : Z) : n <= m -> Z.quot n 12 <= Z.quot m 12.
Proof. intros H. apply Z.quot_le_mono; lia. Qed.

Lemma quot_12_year (n : Z) : Z.quot (n + 11) 12 <= Z.quot n 12 + 1.
Proof.
  rewrite !quot_12_div.
  destruct (Z.leb_spec 0 n), (Z.leb_spec 0 (n + 11));
    Z.div_mod_to_equations; lia.
Qed.

Lemma current_age_mono_step (t : nat) :
  current_age policy t <= current_age policy (S t).
Proof.
  induction t as [t IH] using (well_founded_induction lt_wf).
  destruct (lt_dec t 11) as [Hlt | Hge].
  - rewrite !current_age_base by lia. apply quot_12_mono. lia.
  - destruct (Nat.eq_dec t 11) as [-> | Hne].
    + rewrite (current_age_step 12) by lia.
      change (12 - 12)%nat with 0%nat.
      rewrite (current_age_base 11), (current_age_base 0) by lia.
      change (Z.of_nat 11) with 11. change (Z.of_nat 0) with 0.
      replace (age_at_entry policy * 12 + (duration_IF policy + 11))
        with (age_at_entry policy * 12 + duration_IF policy + 11) by lia.
      replace (age_at_entry policy * 12 + (duration_IF policy + 0))
        with (age_at_entry policy * 12 + duration_IF policy) by lia.
      apply quot_12_year.
    + rewrite (current_age_step t), (current_age_step (S t)) by lia.
      replace (S t - 12)%nat with (S (t - 12)) by lia.
      specialize (IH (t - 12)%nat ltac:(lia)). lia.
Qed.

Lemma current_age_mono (s t : nat) :
  (s <= t)%nat -> current_age policy s <= current_age policy t.
Proof.
  induction 1 as [| t _ IH]; [lia |].
  pose proof (current_age_mono_step t). lia.
Qed.

End CurrentAge.

Section Mortality.

Variable policy : Policy.
Variable assumption : Assumption.

Lemma death_rate_lookup_same_age (s t : nat) :
  current_age policy s = current_age policy t -> death_rate_lookup policy assumption s = death_rate_lookup policy assumption t.
Proof. intros H. unfold death_rate_lookup. rewrite H. reflexivity. Qed.

(** The short-circuit never changes the result. *)
Lemma death_rate_unfold (t : nat) : death_rate policy assumption t = death_rate_lookup policy assumption t.
Proof.
  induction t as [| t IH]; [reflexivity |].
  cbn [death_rate].
  destruct (Z.eqb_spec (current_age policy (S t)) (current_age policy t)) as [Heq | Hne]; [| reflexivity].
  rewrite IH. symmetry. now apply death_rate_lookup_same_age.
Qed.

Lemma Rpower_twelfth_unit (x : R) :
  (0 < x <= 1)%R -> (0 < Rpower x (/ 12) <= 1)%R.
Proof.
  intros [Hpos Hle]. split.
  - unfold Rpower. apply exp_pos.
  - unfold Rpower.
    destruct (Rle_lt_or_eq_dec x 1 Hle) as [Hlt | ->].
    + left. rewrite <- exp_0. apply exp_increasing.
      pose proof (ln_increasing x 1 Hpos Hlt) as Hln.
      rewrite ln_1 in Hln. lra.
    + rewrite ln_1, Rmult_0_r, exp_0. lra.
Qed.

Lemma pow_twelfth_unit (x : R) :
  (0 <= x <= 1)%R ->
  exists r, pow_twelfth x = PyFloat r /\ (0 <= r <= 1)%R.
Proof.
  intros [H0 H1]. unfold pow_twelfth.
  destruct (Rlt_dec x 0) as [Hneg | _]; [lra |].
  destruct (Req_dec_T x 0) as [-> | Hnz].
  - exists 0%R. split; [reflexivity | lra].
  - exists (Rpower x (/ 12)). split; [reflexivity |].
    pose proof (Rpower_twelfth_unit x ltac:(lra)). lra.
Qed.

Lemma min_le_1 (b : pynum) (v : R) : min_ 1 b = Ok v -> (v <= 1)%R.
Proof.
  destruct b as [y | re im]; cbn; [| discriminate].
  intros [= <-]. destruct (Rlt_dec y 1); lra.
Qed.

Lemma death_rate_lookup_le_1 (t : nat) (v : R) :
  death_rate_lookup policy assumption t = Ok v -> (v <= 1)%R.
Proof.
  unfold death_rate_lookup.
  destruct (current_age policy t <=? max_mortality_age assumption).
  - destruct (lookup _ _) as [q | e |]; cbn; try discriminate.
    destruct (mortality_overlay_factor policy assumption) as [f | e |];
      cbn -[min_]; try discriminate.
    apply min_le_1.
  - intros [= <-]. lra.
Qed.

Lemma min_finite (a : R) (b : pynum) : min_ a b <> NotFinite.
Proof. destruct b; discriminate. Qed.

(** No division takes place in [death_rate]. *)
Lemma death_rate_finite (t : nat) :
  death_rate policy assumption t <> NotFinite.
Proof.
  rewrite death_rate_unfold. unfold death_rate_lookup.
  destruct (current_age policy t <=? max_mortality_age assumption);
    [| discriminate].
  destruct (mortality_base_table assumption _ _) as [q |];
    cbn [lookup bind]; [| discriminate].
  unfold mortality_overlay_factor.
  destruct (mortality_overlay assumption _) as [f |];
    cbn [lookup bind]; [| discriminate].
  apply min_finite.
Qed.

Lemma death_rate_lookup_valid (t : nat) :
  mortality_valid_at policy assumption t ->
  exists v, death_rate_lookup policy assumption t = Ok v /\ (0 <= v <= 1)%R.
Proof.
  intros Hvalid. unfold death_rate_lookup.
  destruct (Z.leb_spec (current_age policy t) (max_mortality_age assumption))
    as [Hage | Hage].
  - destruct (Hvalid Hage) as [[q [Hq1 Hq2]] [f [Hf Hf0]]].
    rewrite Hq1. cbn [lookup bind].
    unfold mortality_overlay_factor. rewrite Hf. cbn [lookup bind].
    destruct (pow_twelfth_unit (1 - q)) as [r [Hr Hr01]]; [lra |].
    rewrite Hr. cbn.
    eexists. split; [reflexivity |].
    destruct (Rlt_dec ((1 - r) * f) 1); [| lra].
    split; [| lra]. apply Rmult_le_pos; lra.
  - exists 1%R. split; [reflexivity | lra].
Qed.

Lemma death_rate_beyond_max (t : nat) :
  assumption.(max_mortality_age) < current_age policy t -> death_rate policy assumption t = Ok 1%R.
Proof.
  intros H. rewrite death_rate_unfold. unfold death_rate_lookup.
  destruct (Z.leb_spec (current_age policy t) (max_mortality_age assumption)); [lia | reflexivity].
Qed.

End Mortality.

Section Survival.

Variable policy : Policy.
Variable assumption : Assumption.

Lemma death_rate_valid (t : nat) :
  mortality_valid_at policy assumption t ->
  exists v, death_rate policy assumption t = Ok v /\ (0 <= v <= 1)%R.
Proof. rewrite death_rate_unfold. apply death_rate_lookup_valid. Qed.

Lemma in_force_unit (t : nat) :
  mortality_valid_before policy assumption t ->
  exists a,
    expected_number_of_policies_IF policy assumption t = Ok a
    /\ (0 <= a <= 1)%R.
Proof.
  induction t as [| t IH]; intros Hvalid.
  - exists 1%R. split; [reflexivity | lra].
  - destruct IH as [a [Ha Ha01]];
      [intros u Hu; apply Hvalid; lia |].
    destruct (death_rate_valid t) as [q [Hq Hq01]]; [apply Hvalid; lia |].
    exists (a * (1 - q))%R. cbn [expected_number_of_policies_IF].
    rewrite Ha, Hq. split; [reflexivity | nra].
Qed.

Lemma in_force_decreases (t : nat) :
  mortality_valid_before policy assumption (S t) ->
  exists a b,
    expected_number_of_policies_IF policy assumption t = Ok a
    /\ expected_number_of_policies_IF policy assumption (S t) = Ok b
    /\ (0 <= b <= a)%R /\ (a <= 1)%R.
Proof.
  intros Hvalid.
  destruct (in_force_unit t) as [a [Ha Ha01]];
    [intros u Hu; apply Hvalid; lia |].
  destruct (death_rate_valid t) as [q [Hq Hq01]]; [apply Hvalid; lia |].
  exists a, (a * (1 - q))%R. cbn [expected_number_of_policies_IF].
  rewrite Ha, Hq. cbn [bind]. repeat split; nra.
Qed.

(** No division takes place in the in-force count. *)
Lemma in_force_finite (t : nat) :
  expected_number_of_policies_IF policy assumption t <> NotFinite.
Proof.
  induction t as [| t IH]; [discriminate |].
  cbn [expected_number_of_policies_IF].
  destruct (expected_number_of_policies_IF policy assumption t)
    as [a | e |]; cbn [bind]; [| discriminate | contradiction].
  pose proof (death_rate_finite policy assumption t) as Hq.
  destruct (death_rate policy assumption t) as [q | e |]; cbn [bind];
    [discriminate | discriminate | contradiction].
Qed.

End Survival.

Section Guarantee.

Variable policy : Policy.

Lemma within_guarantee_period_unfold (t : nat) :
  within_guarantee_period policy (S t) =
  if within_guarantee_period policy t =? 0 then 0
  else Z.b2z (policy.(duration_IF) + Z.of_nat (S t)
              <? policy.(initial_guarantee_term)).
Proof. reflexivity. Qed.

Lemma within_guarantee_period_flag (t : nat) :
  within_guarantee_period policy t = 0 \/ within_guarantee_period policy t = 1.
Proof.
  destruct t as [| t].
  - cbn. destruct (_ <? _); auto.
  - rewrite within_guarantee_period_unfold.
    destruct (_ =? 0); [auto |]. destruct (_ <? _); auto.
Qed.

Lemma within_guarantee_period_absorbing (t : nat) :
  within_guarantee_period policy t = 0 ->
  within_guarantee_period policy (S t) = 0.
Proof.
  intros H. rewrite within_guarantee_period_unfold, H. reflexivity.
Qed.

(** The guard is redundant on integer durations: the raw comparison is
    already monotone in [t]. *)
Lemma within_guarantee_period_raw (t : nat) :
  within_guarantee_period policy t =
  Z.b2z (policy.(duration_IF) + Z.of_nat t <? policy.(initial_guarantee_term)).
Proof.
  induction t as [| t IH]; [reflexivity |].
  rewrite within_guarantee_period_unfold, IH.
  destruct (Z.ltb_spec (duration_IF policy + Z.of_nat t)
              (initial_guarantee_term policy)) as [Hlt | Hge]; cbn [Z.b2z Z.eqb].
  - reflexivity.
  - destruct (Z.ltb_spec (duration_IF policy + Z.of_nat (S t))
                (initial_guarantee_term policy)); [lia | reflexivity].
Qed.

Lemma within_guarantee_period_array_nth (T t : nat) :
  (t <= T)%nat ->
  nth_error (within_guarantee_period_array policy T) t =
  Some (within_guarantee_period policy t).
Proof.
  intros Ht. unfold within_guarantee_period_array.
  rewrite nth_error_map, nth_error_seq.
  destruct (Nat.ltb_spec t (T + 1)); [| lia].
  cbn. now rewrite within_guarantee_period_raw.
Qed.

End Guarantee.

Section Annuity.

Variable policy : Policy.
Variable assumption : Assumption.

(** With a finite payment interval that is not zero, the payment-month
    test is the integer one. *)
Lemma payment_month_test (t : nat) :
  policy.(annuity_payment_frequency) <> 0 ->
  12 / policy.(annuity_payment_frequency) <> 0 ->
  is_zero (mod_ (policy.(duration_IF) + Z.of_nat t)
             (floordiv 12 policy.(annuity_payment_frequency)))
  = ((policy.(duration_IF) + Z.of_nat t)
       mod (12 / policy.(annuity_payment_frequency)) =? 0).
Proof.
  intros Hf Hi. unfold floordiv, mod_.
  destruct (Z.eqb_spec (annuity_payment_frequency policy) 0); [contradiction |].
  destruct (Z.eqb_spec (12 / annuity_payment_frequency policy) 0);
    [contradiction | reflexivity].
Qed.

(** What [annuity_payment_per_policy] returns once the payment-month gate
    has been passed. *)
Lemma annuity_payment_on_month (t : nat) :
  payment_month policy t ->
  annuity_payment_per_policy policy assumption t =
  if policy.(escalation_type) =? 0 then
    truediv policy.(initial_annuity) policy.(annuity_payment_frequency)
  else if policy.(escalation_type) =? 1 then
    if lt_dec t 12 then initial_annuity_per_payment_period policy
    else
      previous_payment <- annuity_payment_per_policy policy assumption (t - 12) ;;
      Ok (previous_payment * (1 + policy.(escalation_rate)))%R
  else if policy.(escalation_type) =? 2 then
    if lt_dec t 12 then initial_annuity_per_payment_period policy
    else
      previous_payment <- annuity_payment_per_policy policy assumption (t - 12) ;;
      inflation <- lookup "inflation_forward"
                     (assumption.(inflation_forward) (Z.of_nat t - 12)) ;;
      Ok (previous_payment * (1 + inflation))%R
  else
    Raise (ValueError ("Unsupported escalation_type: "
                       ++ str policy.(escalation_type))).
Proof.
  intros (Hf & Hi & Hm).
  rewrite annuity_payment_per_policy_equation_1. cbv zeta.
  rewrite payment_month_test, Hm by assumption. reflexivity.
Qed.

Lemma annuity_payment_off_month (t : nat) :
  policy.(annuity_payment_frequency) <> 0 ->
  12 / policy.(annuity_payment_frequency) <> 0 ->
  (policy.(duration_IF) + Z.of_nat t)
    mod (12 / policy.(annuity_payment_frequency)) <> 0 ->
  annuity_payment_per_policy policy assumption t = Ok 0%R.
Proof.
  intros Hf Hi Hm.
  rewrite annuity_payment_per_policy_equation_1. cbv zeta.
  rewrite payment_month_test by assumption.
  destruct (Z.eqb_spec ((duration_IF policy + Z.of_nat t)
                        mod (12 / annuity_payment_frequency policy)) 0);
    [contradiction | reflexivity].
Qed.

(** Every payment interval the code can compute divides the year. *)
Lemma payment_interval_divides_year (f : Z) :
  f <> 0 -> 12 / f <> 0 -> (12 / f | 12).
Proof.
  intros Hf Hi.
  destruct (Z_lt_le_dec 12 f) as [Hbig | Hle].
  { rewrite Z.div_small in Hi by lia. contradiction. }
  destruct (Z_lt_le_dec f (-12)) as [Hsmall | Hge].
  { assert (12 / f = -1) as -> by (Z.div_mod_to_equations; nia).
    exists (-12). reflexivity. }
  assert (f = -12 \/ f = -11 \/ f = -10 \/ f = -9 \/ f = -8 \/ f = -7
          \/ f = -6 \/ f = -5 \/ f = -4 \/ f = -3 \/ f = -2 \/ f = -1
          \/ f = 1 \/ f = 2 \/ f = 3 \/ f = 4 \/ f = 5 \/ f = 6
          \/ f = 7 \/ f = 8 \/ f = 9 \/ f = 10 \/ f = 11 \/ f = 12)
    as Hcases by lia.
  repeat (destruct Hcases as [-> | Hcases]); try subst f;
    apply Z.mod_divide; try reflexivity; discriminate.
Qed.

Lemma payment_month_previous_year (t : nat) :
  payment_month policy t -> (12 <= t)%nat -> payment_month policy (t - 12).
Proof.
  intros (Hf & Hi & Hm) Ht. repeat split; try assumption.
  apply Z.mod_divide in Hm; [| assumption].
  apply Z.mod_divide; [assumption |].
  replace (duration_IF policy + Z.of_nat (t - 12))
    with (duration_IF policy + Z.of_nat t - 12) by lia.
  apply Z.divide_sub_r; [assumption |].
  now apply payment_interval_divides_year.
Qed.

(** Fixed escalation in closed form: the initial amount per period,
    compounded once per elapsed projection year. *)
Lemma annuity_payment_fixed_closed_form (t : nat) :
  policy.(escalation_type) = 1 ->
  payment_month policy t ->
  annuity_payment_per_policy policy assumption t =
  Ok (policy.(initial_annuity) / IZR policy.(annuity_payment_frequency)
      * (1 + policy.(escalation_rate)) ^ (t / 12))%R.
Proof.
  intros Hesc.
  induction t as [t IH] using (well_founded_induction lt_wf).
  intros Hpm. rewrite annuity_payment_on_month by assumption.
  rewrite Hesc. cbn [Z.eqb Pos.eqb].
  destruct (lt_dec t 12) as [Hlt | Hge].
  - unfold initial_annuity_per_payment_period, truediv.
    destruct Hpm as (Hf & _).
    destruct (Z.eqb_spec (annuity_payment_frequency policy) 0);
      [contradiction |].
    rewrite Nat.div_small by assumption. cbn [pow]. f_equal. lra.
  - rewrite IH; [| lia | apply payment_month_previous_year; [assumption | lia]].
    cbn [bind]. f_equal.
    replace (t / 12)%nat with (S ((t - 12) / 12)).
    + cbn [pow]. lra.
    + replace t with ((t - 12) + 1 * 12)%nat at 2 by lia.
      rewrite Nat.div_add by lia. lia.
Qed.

Lemma annuity_payment_unsupported (t : nat) :
  policy.(escalation_type) <> 0 ->
  policy.(escalation_type) <> 1 ->
  policy.(escalation_type) <> 2 ->
  payment_month policy t ->
  annuity_payment_per_policy policy assumption t =
  Raise (ValueError ("Unsupported escalation_type: "
                     ++ str policy.(escalation_type))).
Proof.
  intros H0 H1 H2 Hpm. rewrite annuity_payment_on_month by assumption.
  destruct (Z.eqb_spec (escalation_type policy) 0); [contradiction |].
  destruct (Z.eqb_spec (escalation_type policy) 1); [contradiction |].
  destruct (Z.eqb_spec (escalation_type policy) 2); [contradiction |].
  reflexivity.
Qed.

Lemma truediv_finite (a : R) (b : Z) :
  b <> 0 -> truediv a b = Ok (a / IZR b)%R.
Proof.
  intros Hb. unfold truediv.
  destruct (Z.eqb_spec b 0); [contradiction | reflexivity].
Qed.

(** With a frequency that is not zero no division produces an infinity:
    the payment is a value or an exception. *)
Lemma annuity_payment_finite (t : nat) :
  policy.(annuity_payment_frequency) <> 0 ->
  annuity_payment_per_policy policy assumption t <> NotFinite.
Proof.
  intros Hf.
  induction t as [t IH] using (well_founded_induction lt_wf).
  rewrite annuity_payment_per_policy_equation_1. cbv zeta.
  unfold initial_annuity_per_payment_period.
  rewrite truediv_finite by assumption.
  destruct (negb _); [discriminate |].
  destruct (_ =? 0); [discriminate |].
  assert (Hprev : ~ (t < 12)%nat ->
            annuity_payment_per_policy policy assumption (t - 12)
            <> NotFinite) by (intros; apply IH; lia).
  destruct (_ =? 1).
  - destruct (lt_dec t 12) as [| Hge]; [discriminate |].
    specialize (Hprev Hge).
    destruct (annuity_payment_per_policy policy assumption (t - 12))
      as [p | e |]; cbn [bind]; [discriminate | discriminate | contradiction].
  - destruct (_ =? 2); [| discriminate].
    destruct (lt_dec t 12) as [| Hge]; [discriminate |].
    specialize (Hprev Hge).
    destruct (annuity_payment_per_policy policy assumption (t - 12))
      as [p | e |]; cbn [bind]; [| discriminate | contradiction].
    destruct (inflation_forward assumption _); discriminate.
Qed.

End Annuity.

(** [str] is injective: the rendered value determines the integer. *)
Lemma str_inj (a b : Z) : str a = str b -> a = b.
Proof.
  unfold str. intros H.
  apply DecimalZ.to_int_inj.
  assert (Hnil : forall z, Z.to_int z <> Decimal.Pos Decimal.Nil
                           /\ Z.to_int z <> Decimal.Neg Decimal.Nil).
  { intros [| p | p]; cbn; split; try discriminate;
      intros [= Hp]; now apply DecimalPos.Unsigned.to_uint_nonnil in Hp. }
  destruct (Hnil a) as [Ha1 Ha2]. destruct (Hnil b) as [Hb1 Hb2].
  pose proof (NilZero.isi _ Ha1 Ha2) as Ia.
  pose proof (NilZero.isi _ Hb1 Hb2) as Ib.
  rewrite H in Ia. rewrite Ia in Ib. now injection Ib.
Qed.

Section PresentValues.

Variable policy : Policy.
Variable assumption : Assumption.
Variable projection_length : nat.
Variable discount : list R -> list pynum -> list R.

(** The discounting primitive returns one present value per cash flow. *)
Hypothesis discount_length :
  forall cash_flows factors,
    List.length factors = List.length cash_flows ->
    List.length (discount cash_flows factors) = List.length cash_flows.

Lemma mapM_length {A B : Type} (f : A -> result B) (l : list A) (bs : list B) :
  mapM f l = Ok bs -> List.length bs = List.length l.
Proof.
  revert bs. induction l as [| a l IH]; intros bs; cbn [mapM].
  - now intros [= <-].
  - destruct (f a) as [b | e |]; cbn [bind]; try discriminate.
    destruct (mapM f l) as [bs' | e |]; cbn [bind]; try discriminate.
    intros [= <-]. cbn. now rewrite (IH bs').
Qed.

Lemma discount_rate_length (rates : list pynum) :
  discount_rate assumption projection_length = Ok rates ->
  List.length rates = (projection_length + 1)%nat.
Proof.
  unfold discount_rate.
  destruct (mapM _ _) as [factors | e |] eqn:Hfactors; cbn [bind];
    try discriminate.
  destruct (existsb is_complex factors); [discriminate |].
  intros [= <-]. apply mapM_length in Hfactors.
  now rewrite length_seq in Hfactors.
Qed.

Lemma add_pointwise_length (xs ys : list R) :
  List.length xs = List.length ys ->
  List.length (add_pointwise xs ys) = List.length xs.
Proof.
  revert ys. induction xs as [| x xs IH]; intros [| y ys]; cbn;
    try reflexivity; try discriminate.
  intros [= H]. now rewrite IH.
Qed.

Lemma add_pointwise_nth (xs ys : list R) (t : nat) (x y : R) :
  nth_error xs t = Some x -> nth_error ys t = Some y ->
  nth_error (add_pointwise xs ys) t = Some (x + y)%R.
Proof.
  revert ys t. induction xs as [| x0 xs IH]; intros [| y0 ys] [| t]; cbn;
    try discriminate.
  - now intros [= ->] [= ->].
  - apply IH.
Qed.

(** A discounted series holds [projection_length + 1] values. *)
Lemma discounted_length (f : nat -> result R) (pv : list R) :
  (cash_flows <- series projection_length f ;;
   rates <- discount_rate assumption projection_length ;;
   Ok (discount cash_flows rates)) = Ok pv ->
  List.length pv = (projection_length + 1)%nat.
Proof.
  unfold series.
  destruct (mapM f _) as [cf | e |] eqn:Hcf; cbn [bind]; try discriminate.
  destruct (discount_rate assumption projection_length) as [df | e |] eqn:Hdf;
    cbn [bind]; try discriminate.
  intros [= <-].
  apply mapM_length in Hcf. rewrite length_seq in Hcf.
  apply discount_rate_length in Hdf.
  rewrite discount_length; congruence.
Qed.

(** Indexing a sum of two series of the projection's length. *)
Lemma at_t_np_add (X Y : result (list R)) (n t : nat) :
  (forall xs, X = Ok xs -> List.length xs = n) ->
  (forall ys, Y = Ok ys -> List.length ys = n) ->
  (t < n)%nat ->
  at_t (xs <- X ;; ys <- Y ;; np_add xs ys) t =
  (x <- at_t X t ;; y <- at_t Y t ;; Ok (x + y)%R).
Proof.
  intros HX HY Ht.
  destruct X as [xs | e |]; [| reflexivity | reflexivity].
  specialize (HX xs eq_refl).
  destruct (nth_error xs t) as [x |] eqn:Hx;
    [| apply nth_error_None in Hx; lia].
  destruct Y as [ys | e |]; cbn [bind at_t]; rewrite Hx;
    [| reflexivity | reflexivity].
  specialize (HY ys eq_refl).
  destruct (nth_error ys t) as [y |] eqn:Hy;
    [| apply nth_error_None in Hy; lia].
  cbn [bind]. unfold np_add.
  rewrite HX, HY, Nat.eqb_refl. cbn [bind at_t].
  now rewrite (add_pointwise_nth xs ys t x y).
Qed.

Lemma np_add_length (X Y : result (list R)) (n : nat) (zs : list R) :
  (forall xs, X = Ok xs -> List.length xs = n) ->
  (forall ys, Y = Ok ys -> List.length ys = n) ->
  (xs <- X ;; ys <- Y ;; np_add xs ys) = Ok zs ->
  List.length zs = n.
Proof.
  intros HX HY.
  destruct X as [xs | e |]; cbn [bind]; try discriminate.
  destruct Y as [ys | e |]; cbn [bind]; try discriminate.
  specialize (HX xs eq_refl). specialize (HY ys eq_refl).
  unfold np_add. rewrite HX, HY, Nat.eqb_refl.
  intros [= <-]. rewrite add_pointwise_length; congruence.
Qed.

Lemma EPV_annuity_benefit_length (pv : list R) :
  EPV_annuity_benefit policy assumption projection_length discount = Ok pv ->
  List.length pv = (projection_length + 1)%nat.
Proof. apply discounted_length. Qed.

Lemma EPV_renewal_expenses_length (pv : list R) :
  EPV_renewal_expenses policy assumption projection_length discount = Ok pv ->
  List.length pv = (projection_length + 1)%nat.
Proof. apply discounted_length. Qed.

Lemma EPV_investment_expenses_length (pv : list R) :
  EPV_investment_expenses policy assumption projection_length discount = Ok pv ->
  List.length pv = (projection_length + 1)%nat.
Proof. apply discounted_length. Qed.

Lemma EPV_total_expenses_length (pv : list R) :
  EPV_total_expenses policy assumption projection_length discount = Ok pv ->
  List.length pv = (projection_length + 1)%nat.
Proof.
  apply np_add_length;
    [apply EPV_renewal_expenses_length | apply EPV_investment_expenses_length].
Qed.

Lemma EPV_total_expenses_at (t : nat) :
  (t <= projection_length)%nat ->
  at_t (EPV_total_expenses policy assumption projection_length discount) t =
  (renewal <- at_t (EPV_renewal_expenses policy assumption projection_length
                      discount) t ;;
   investment <- at_t (EPV_investment_expenses policy assumption
                         projection_length discount) t ;;
   Ok (renewal + investment)%R).
Proof.
  intros Ht. unfold EPV_total_expenses.
  apply at_t_np_add with (n := (projection_length + 1)%nat);
    [apply EPV_renewal_expenses_length
    | apply EPV_investment_expenses_length | lia].
Qed.

Lemma EPV_liability_at (t : nat) :
  (t <= projection_length)%nat ->
  at_t (EPV_liability policy assumption projection_length discount) t =
  (benefit <- at_t (EPV_annuity_benefit policy assumption projection_length
                      discount) t ;;
   expenses <- at_t (EPV_total_expenses policy assumption projection_length
                       discount) t ;;
   Ok (benefit + expenses)%R).
Proof.
  intros Ht. unfold EPV_liability.
  apply at_t_np_add with (n := (projection_length + 1)%nat);
    [apply EPV_annuity_benefit_length
    | apply EPV_total_expenses_length | lia].
Qed.

End PresentValues.

Lemma discount_contract_length (cash_flows : list R) (factors : list pynum) :
  List.length (discount_contract cash_flows factors) = List.length cash_flows.
Proof.
  revert factors. induction cash_flows as [| c cf IH]; intros factors.
  - reflexivity.
  - cbn. now rewrite IH.
Qed.

Section Halting.

Variable policy : Policy.
Variable assumption : Assumption.
Variable projection_length : nat.
Variable discount : list R -> list pynum -> list R.

Lemma mapM_raises {A B : Type} (f : A -> result B) (l : list A) (a : A)
  (e : pyerror) :
  (forall x, In x l -> f x <> NotFinite) ->
  In a l -> f a = Raise e -> exists e', mapM f l = Raise e'.
Proof.
  induction l as [| a0 l IH]; intros Hfinite Hin Hf; [contradiction |].
  cbn [mapM].
  destruct (f a0) as [b0 | e0 |] eqn:H0; cbn [bind];
    [| eauto | now apply Hfinite in H0; [| left]].
  destruct Hin as [-> | Hin]; [congruence |].
  destruct (IH (fun x Hx => Hfinite x (or_intror Hx)) Hin Hf) as [e' ->].
  cbn [bind]. eauto.
Qed.

Lemma expected_annuity_payment_finite (t : nat) :
  policy.(annuity_payment_frequency) <> 0 ->
  expected_annuity_payment policy assumption t <> NotFinite.
Proof.
  intros Hf. unfold expected_annuity_payment.
  pose proof (annuity_payment_finite policy assumption t Hf) as Hp.
  destruct (negb _); [exact Hp |].
  destruct (annuity_payment_per_policy policy assumption t) as [p | e |];
    cbn [bind]; [| discriminate | contradiction].
  pose proof (in_force_finite policy assumption t) as Ha.
  destruct (expected_number_of_policies_IF policy assumption t) as [a | e |];
    cbn [bind]; [discriminate | discriminate | contradiction].
Qed.

(** A payment that raises at some month of the horizon leaves the
    projection without a liability. *)
Lemma annuity_payment_raise_halts (t : nat) (e : pyerror) :
  policy.(annuity_payment_frequency) <> 0 ->
  (t <= projection_length)%nat ->
  annuity_payment_per_policy policy assumption t = Raise e ->
  exists e', liability policy assumption projection_length discount = Raise e'.
Proof.
  intros Hf Ht Hraise.
  assert (Hexp : expected_annuity_payment policy assumption t = Raise e).
  { unfold expected_annuity_payment. rewrite Hraise.
    destruct (negb _); reflexivity. }
  destruct (mapM_raises (expected_annuity_payment policy assumption)
              (seq 0 (projection_length + 1)) t e) as [e' He'];
    [intros x _; now apply expected_annuity_payment_finite
    | apply in_seq; lia | assumption |].
  exists e'.
  unfold liability, at_t, EPV_liability, EPV_annuity_benefit, series.
  rewrite He'. reflexivity.
Qed.

End Halting.

Section Defined.

Variable policy : Policy.
Variable assumption : Assumption.

Lemma mapM_defined {A B : Type} (f : A -> result B) (l : list A) :
  (forall a, In a l -> exists b, f a = Ok b) -> exists bs, mapM f l = Ok bs.
Proof.
  induction l as [| a l IH]; intros Hf.
  - now exists [].
  - destruct (Hf a (or_introl eq_refl)) as [b Hb].
    destruct IH as [bs Hbs]; [intros a' Ha'; apply Hf; now right |].
    exists (b :: bs). cbn [mapM]. now rewrite Hb, Hbs.
Qed.

Lemma mapM_Forall {A B : Type} (f : A -> result B) (P : B -> Prop)
  (l : list A) (bs : list B) :
  mapM f l = Ok bs ->
  (forall a b, In a l -> f a = Ok b -> P b) ->
  Forall P bs.
Proof.
  revert bs. induction l as [| a l IH]; intros bs; cbn [mapM].
  - intros [= <-] _. constructor.
  - destruct (f a) as [b | e |] eqn:Hb; cbn [bind]; try discriminate.
    destruct (mapM f l) as [bs' | e |]; cbn [bind]; try discriminate.
    intros [= <-] HP. constructor.
    + apply (HP a); [now left | assumption].
    + apply IH; [reflexivity |]. intros a' b' Ha'. apply HP. now right.
Qed.

Lemma existsb_complex_false (factors : list pynum) :
  Forall (fun x => is_complex x = false) factors ->
  existsb is_complex factors = false.
Proof.
  induction 1 as [| x l Hx _ IH]; [reflexivity |].
  cbn [existsb]. now rewrite Hx, IH.
Qed.

Lemma pow_twelfth_real (x : R) :
  (0 <= x)%R -> is_complex (pow_twelfth x) = false.
Proof.
  intros Hx. unfold pow_twelfth.
  destruct (Rlt_dec x 0); [lra |].
  destruct (Req_dec_T x 0); reflexivity.
Qed.

(** A payment interval of zero closes the payment-month gate. *)
Lemma payment_month_test_zero_interval (t : nat) :
  policy.(annuity_payment_frequency) <> 0 ->
  12 / policy.(annuity_payment_frequency) = 0 ->
  is_zero (mod_ (policy.(duration_IF) + Z.of_nat t)
             (floordiv 12 policy.(annuity_payment_frequency))) = false.
Proof.
  intros Hf Hi. unfold floordiv.
  destruct (Z.eqb_spec (annuity_payment_frequency policy) 0); [contradiction |].
  rewrite Hi. reflexivity.
Qed.

(** The payment at [t] has a value when the frequency is not zero, the
    escalation type is supported and the inflation keys [t - 12],
    [t - 24], ... are present. *)
Lemma annuity_payment_defined (t : nat) :
  policy.(annuity_payment_frequency) <> 0 ->
  policy.(escalation_type) = 0 \/ policy.(escalation_type) = 1
  \/ policy.(escalation_type) = 2 ->
  (forall k, (1 <= k)%nat -> (12 * k <= t)%nat ->
             exists i, assumption.(inflation_forward)
                         (Z.of_nat t - 12 * Z.of_nat k) = Some i) ->
  exists v, annuity_payment_per_policy policy assumption t = Ok v.
Proof.
  intros Hf Hesc.
  induction t as [t IH] using (well_founded_induction lt_wf).
  intros Hkeys.
  rewrite annuity_payment_per_policy_equation_1. cbv zeta.
  unfold initial_annuity_per_payment_period.
  rewrite truediv_finite by assumption.
  destruct (negb _); [eauto |].
  assert (Hprev : ~ (t < 12)%nat ->
            exists v, annuity_payment_per_policy policy assumption (t - 12)
                      = Ok v).
  { intros Hge. apply IH; [lia |]. intros k Hk1 Hk2.
    replace (Z.of_nat (t - 12) - 12 * Z.of_nat k)
      with (Z.of_nat t - 12 * Z.of_nat (S k)) by lia.
    apply Hkeys; lia. }
  destruct Hesc as [-> | [-> | ->]]; cbn [Z.eqb Pos.eqb].
  - eauto.
  - destruct (lt_dec t 12) as [| Hge]; [eauto |].
    destruct (Hprev Hge) as [v ->]. cbn [bind]. eauto.
  - destruct (lt_dec t 12) as [| Hge]; [eauto |].
    destruct (Hprev Hge) as [v ->].
    destruct (Hkeys 1%nat ltac:(lia) ltac:(lia)) as [i Hi].
    replace (Z.of_nat t - 12 * Z.of_nat 1) with (Z.of_nat t - 12) in Hi
      by lia.
    rewrite Hi. cbn [bind lookup]. eauto.
Qed.

(** The renewal expense at [t] has a value when the base expense and the
    margin are present and so are the inflation keys [t - 12], [t - 24],
    ... *)
Lemma renewal_expense_defined (t : nat) :
  (exists b, assumption.(expense_renewal_expense) = Some b) ->
  (exists m, assumption.(expense_inflation_margin) = Some m) ->
  (forall k, (1 <= k)%nat -> (12 * k <= t)%nat ->
             exists i, assumption.(inflation_forward)
                         (Z.of_nat t - 12 * Z.of_nat k) = Some i) ->
  exists v, renewal_expense_per_policy policy assumption t = Ok v.
Proof.
  intros [b Hb] [m Hm].
  induction t as [t IH] using (well_founded_induction lt_wf).
  intros Hkeys.
  rewrite renewal_expense_per_policy_equation_1. cbv zeta.
  destruct (negb _); [eauto |].
  destruct (lt_dec t 12) as [| Hge].
  - unfold base_renewal_expense. rewrite Hb. cbn. eauto.
  - destruct (IH (t - 12)%nat ltac:(lia)) as [v ->].
    { intros k Hk1 Hk2.
      replace (Z.of_nat (t - 12) - 12 * Z.of_nat k)
        with (Z.of_nat t - 12 * Z.of_nat (S k)) by lia.
      apply Hkeys; lia. }
    destruct (Hkeys 1%nat ltac:(lia) ltac:(lia)) as [i Hi].
    replace (Z.of_nat t - 12 * Z.of_nat 1) with (Z.of_nat t - 12) in Hi
      by lia.
    rewrite Hi. unfold renewal_expense_inflation_margin. rewrite Hm.
    cbn. eauto.
Qed.

End Defined.

Section Totality.

Variable policy : Policy.
Variable assumption : Assumption.
Variable projection_length : nat.
Variable discount : list R -> list pynum -> list R.

Hypothesis discount_length :
  forall cash_flows factors,
    List.length factors = List.length cash_flows ->
    List.length (discount cash_flows factors) = List.length cash_flows.
Hypothesis frequency_nonzero : policy.(annuity_payment_frequency) <> 0.
Hypothesis escalation_supported :
  policy.(escalation_type) = 0 \/ policy.(escalation_type) = 1
  \/ policy.(escalation_type) = 2.
Hypothesis mortality_valid :
  forall u, (u <= projection_length)%nat ->
            mortality_valid_at policy assumption u.
Hypothesis inflation_defined :
  forall k, 0 <= k <= Z.of_nat projection_length - 12 ->
            exists r, assumption.(inflation_forward) k = Some r.
Hypothesis yield_defined :
  forall t, (t <= projection_length)%nat ->
            exists y, assumption.(yield_curve_forward) (Z.of_nat t) = Some y
                      /\ (-1 < y)%R.
Hypothesis renewal_defined :
  exists r, assumption.(expense_renewal_expense) = Some r.
Hypothesis margin_defined :
  exists r, assumption.(expense_inflation_margin) = Some r.

Lemma inflation_keys_in_horizon (t : nat) :
  (t <= projection_length)%nat ->
  forall k, (1 <= k)%nat -> (12 * k <= t)%nat ->
            exists i, assumption.(inflation_forward)
                        (Z.of_nat t - 12 * Z.of_nat k) = Some i.
Proof. intros Ht k Hk1 Hk2. apply inflation_defined. lia. Qed.

Lemma in_force_in_horizon (t : nat) :
  (t <= projection_length)%nat ->
  exists a, expected_number_of_policies_IF policy assumption t = Ok a.
Proof.
  intros Ht. destruct (in_force_unit policy assumption t) as [a [Ha _]].
  - intros u Hu. apply mortality_valid. lia.
  - eauto.
Qed.

Lemma expected_annuity_payment_defined (t : nat) :
  (t <= projection_length)%nat ->
  exists v, expected_annuity_payment policy assumption t = Ok v.
Proof.
  intros Ht. unfold expected_annuity_payment.
  destruct (annuity_payment_defined policy assumption t frequency_nonzero
              escalation_supported (inflation_keys_in_horizon t Ht))
    as [v ->].
  destruct (in_force_in_horizon t Ht) as [a ->].
  destruct (negb _); cbn [bind]; eauto.
Qed.

Lemma expected_renewal_expense_payment_defined (t : nat) :
  (t <= projection_length)%nat ->
  exists v, expected_renewal_expense_payment policy assumption t = Ok v.
Proof.
  intros Ht. unfold expected_renewal_expense_payment.
  destruct (renewal_expense_defined policy assumption t renewal_defined
              margin_defined (inflation_keys_in_horizon t Ht)) as [v ->].
  destruct (in_force_in_horizon t Ht) as [a ->].
  cbn [bind]. eauto.
Qed.

Lemma discount_rate_defined :
  exists rates, discount_rate assumption projection_length = Ok rates.
Proof.
  unfold discount_rate.
  destruct (mapM_defined
              (fun t => rate <- lookup "yield_curve_forward"
                                  (assumption.(yield_curve_forward)
                                     (Z.of_nat t)) ;;
                        Ok (pow_twelfth (1 + rate)))
              (seq 0 (projection_length + 1))) as [factors Hfactors].
  { intros t Ht. apply in_seq in Ht.
    destruct (yield_defined t ltac:(lia)) as (y & -> & _). cbn. eauto. }
  rewrite Hfactors. cbn [bind].
  rewrite existsb_complex_false; [eauto |].
  apply (mapM_Forall _ _ _ _ Hfactors).
  intros t b Ht. apply in_seq in Ht.
  destruct (yield_defined t ltac:(lia)) as (y & -> & Hy).
  cbn [lookup bind]. intros [= <-]. apply pow_twelfth_real. lra.
Qed.

(** A series whose terms are all defined up to the horizon discounts to
    a series of the projection's length. *)
Lemma discounted_defined (f : nat -> result R) :
  (forall t, (t <= projection_length)%nat -> exists v, f t = Ok v) ->
  exists pv,
    (cash_flows <- series projection_length f ;;
     rates <- discount_rate assumption projection_length ;;
     Ok (discount cash_flows rates)) = Ok pv
    /\ List.length pv = (projection_length + 1)%nat.
Proof.
  intros Hf.
  destruct (mapM_defined f (seq 0 (projection_length + 1))) as [cf Hcf].
  { intros t Ht. apply in_seq in Ht. apply Hf. lia. }
  destruct discount_rate_defined as [rates Hrates].
  exists (discount cf rates).
  assert (Heq : (cash_flows <- series projection_length f ;;
                 rates <- discount_rate assumption projection_length ;;
                 Ok (discount cash_flows rates)) = Ok (discount cf rates)).
  { unfold series. now rewrite Hcf, Hrates. }
  split; [exact Heq |].
  now apply (discounted_length assumption projection_length discount
               discount_length f).
Qed.

Lemma np_add_defined (xs ys : list R) :
  List.length xs = List.length ys ->
  np_add xs ys = Ok (add_pointwise xs ys).
Proof. intros H. unfold np_add. now rewrite H, Nat.eqb_refl. Qed.

(** With supported configuration and complete, valid tables the whole
    projection runs to the end and yields a liability. *)
Lemma liability_defined :
  exists v, liability policy assumption projection_length discount = Ok v.
Proof.
  destruct (discounted_defined (expected_annuity_payment policy assumption))
    as (benefit & Hbenefit & Lbenefit);
    [intros; now apply expected_annuity_payment_defined |].
  destruct (discounted_defined
              (expected_renewal_expense_payment policy assumption))
    as (renewal & Hrenewal & Lrenewal);
    [intros; now apply expected_renewal_expense_payment_defined |].
  fold (EPV_annuity_benefit policy assumption projection_length discount)
    in Hbenefit.
  fold (EPV_renewal_expenses policy assumption projection_length discount)
    in Hrenewal.
  assert (Hgross :
    EPV_liability_gross policy assumption projection_length discount
    = Ok (add_pointwise benefit renewal)).
  { unfold EPV_liability_gross. rewrite Hbenefit, Hrenewal. cbn [bind].
    apply np_add_defined. congruence. }
  destruct (discounted_defined
              (investment_expense_payment policy assumption
                 projection_length discount))
    as (investment & Hinvestment & Linvestment).
  { intros t Ht. unfold investment_expense_payment, at_t.
    rewrite Hgross. cbn [bind].
    destruct (nth_error (add_pointwise benefit renewal) t) as [g |] eqn:Hg.
    - cbn [bind]. eauto.
    - apply nth_error_None in Hg.
      rewrite add_pointwise_length in Hg by congruence. lia. }
  fold (EPV_investment_expenses policy assumption projection_length discount)
    in Hinvestment.
  unfold liability, at_t, EPV_liability, EPV_total_expenses.
  rewrite Hbenefit, Hrenewal, Hinvestment. cbn [bind].
  rewrite np_add_defined by congruence. cbn [bind].
  rewrite np_add_defined
    by (rewrite add_pointwise_length; congruence).
  cbn [bind].
  destruct (nth_error _ 0) as [v |] eqn:Hv; [eauto |].
  apply nth_error_None in Hv.
  rewrite !add_pointwise_length in Hv by
    (rewrite ?add_pointwise_length; congruence).
  lia.
Qed.

End Totality.

(** ** The claims *)

Lemma sample_mortality_valid (t : nat) :
  mortality_valid_at sample_policy sample_assumption t.
Proof.
  intros _. split.
  - exists (1 / 100)%R. split; [reflexivity | lra].
  - exists 1%R. split; [reflexivity | lra].
Qed.

Lemma sample_liability_defined :
  exists v, liability sample_policy sample_assumption 24 discount_contract
            = Ok v.
Proof.
  apply liability_defined.
  - intros cf df _. apply discount_contract_length.
  - discriminate.
  - right. left. reflexivity.
  - intros u _. apply sample_mortality_valid.
  - intros k _. eexists. reflexivity.
  - intros t _. exists (3 / 100)%R. split; [reflexivity | lra].
  - eexists. reflexivity.
  - eexists. reflexivity.
Qed.

Lemma death_rate_negative_overlay_value :
  death_rate sample_policy negative_overlay_assumption 0 = Ok (-1)%R.
Proof.
  cbn [death_rate]. unfold death_rate_lookup.
  replace (current_age sample_policy 0) with 65 by reflexivity.
  cbn -[pow_twelfth min_ Rminus]. unfold pow_twelfth.
  destruct (Rlt_dec (1 - 1) 0) as [Hneg | _]; [lra |].
  destruct (Req_dec_T (1 - 1) 0) as [_ | Hnz]; [| lra].
  cbn. destruct (Rlt_dec ((1 - 0) * -1) 1) as [_ | Hge]; [| lra].
  f_equal. lra.
Qed.

(** C1, counterexample.  With a table rate of 1 and an overlay factor of
    -1 the monthly rate at [t = 0] is [min(1.0, 1 * -1) = -1], which is
    outside [0, 1]: the code caps the rate from above only. *)
Lemma death_rate_negative_overlay :
  death_rate sample_policy negative_overlay_assumption 0 = Ok (-1)%R
  /\ ~ (0 <= -1 <= 1)%R.
Proof. split; [apply death_rate_negative_overlay_value | lra]. Qed.

(** C1, as amended.  [death_rate(t)] is exactly 1.0 whenever
    [current_age(t)] exceeds [max_mortality_age], whatever the tables and
    the overlay factor hold; every value it returns is at most 1; and at
    every [t] where [current_age(t)] exceeds [max_mortality_age], or the
    base table holds a rate in [0, 1] for [current_age(t)] and the overlay
    table holds a factor that is not negative, it returns a value in
    [0, 1]. *)
Theorem death_rate_bounds (policy : Policy) (assumption : Assumption) :
  (forall t,
      assumption.(max_mortality_age) < current_age policy t ->
      death_rate policy assumption t = Ok 1%R)
  /\ (forall t v, death_rate policy assumption t = Ok v -> (v <= 1)%R)
  /\ (forall t,
         mortality_valid_at policy assumption t ->
         exists v,
           death_rate policy assumption t = Ok v /\ (0 <= v <= 1)%R).
Proof.
  split; [| split].
  - intros t. apply death_rate_beyond_max.
  - intros t v. rewrite death_rate_unfold. apply death_rate_lookup_le_1.
  - intros t. apply death_rate_valid.
Qed.

Lemma death_rate_bounds_witness :
  death_rate sample_policy sample_assumption 552 = Ok 1%R
  /\ (exists v, death_rate sample_policy sample_assumption 3 = Ok v
                /\ (0 <= v <= 1)%R).
Proof.
  destruct (death_rate_bounds sample_policy sample_assumption)
    as (Hmax & Hcap & Hunit).
  split.
  - apply Hmax. reflexivity.
  - apply Hunit. apply sample_mortality_valid.
Defined.

(** C2, counterexample.  With the same tables the death rate at [t = 0]
    is -1, so the in-force count goes from 1 at [t = 0] to
    [1 * (1 - (-1)) = 2] at [t = 1]: it increases and leaves [0, 1]. *)
Lemma in_force_negative_overlay :
  expected_number_of_policies_IF sample_policy negative_overlay_assumption 0
  = Ok 1%R
  /\ expected_number_of_policies_IF sample_policy negative_overlay_assumption 1
     = Ok 2%R
  /\ ~ (2 <= 1)%R.
Proof.
  split; [reflexivity | split; [| lra]].
  cbn [expected_number_of_policies_IF bind].
  rewrite death_rate_negative_overlay_value. cbn [bind]. f_equal. lra.
Qed.

(** C2, as amended.  [expected_number_of_policies_IF(0)] is exactly 1.0;
    and for every [t] such that at each month [u <= t] either
    [current_age(u)] exceeds [max_mortality_age], or the base table holds a
    rate in [0, 1] for [current_age(u)] and the overlay table holds a
    factor that is not negative: the series has a value at [t] and at
    [t+1], the later one is not larger, and both are in [0, 1]. *)
Theorem in_force_survivorship (policy : Policy) (assumption : Assumption) :
  expected_number_of_policies_IF policy assumption 0 = Ok 1%R
  /\ (forall t,
         (forall u, (u <= t)%nat -> mortality_valid_at policy assumption u) ->
         exists a b,
           expected_number_of_policies_IF policy assumption t = Ok a
           /\ expected_number_of_policies_IF policy assumption (t + 1) = Ok b
           /\ (b <= a)%R /\ (0 <= a <= 1)%R /\ (0 <= b <= 1)%R).
Proof.
  split; [reflexivity |].
  intros t Hvalid.
  destruct (in_force_decreases policy assumption t)
    as (a & b & Ha & Hb & Hba & Ha1).
  { intros u Hu. apply Hvalid. lia. }
  exists a, b. rewrite Nat.add_1_r. repeat split; try assumption; lra.
Qed.

Lemma in_force_survivorship_witness :
  exists a b,
    expected_number_of_policies_IF sample_policy sample_assumption 5 = Ok a
    /\ expected_number_of_policies_IF sample_policy sample_assumption (5 + 1)
       = Ok b
    /\ (b <= a)%R /\ (0 <= a <= 1)%R /\ (0 <= b <= 1)%R.
Proof.
  apply (in_force_survivorship sample_policy sample_assumption).
  intros u _. apply sample_mortality_valid.
Defined.

(** C3.  [within_guarantee_period(t)] is 0 or 1 at every [t], and 0 is
    absorbing: a flag that is 0 at [t] is 0 at [t+1]. *)
Theorem within_guarantee_period_invariant (policy : Policy) (t : nat) :
  (within_guarantee_period policy t = 0
   \/ within_guarantee_period policy t = 1)
  /\ (within_guarantee_period policy t = 0 ->
      within_guarantee_period policy (t + 1) = 0).
Proof.
  split.
  - apply within_guarantee_period_flag.
  - rewrite Nat.add_1_r. apply within_guarantee_period_absorbing.
Qed.

Lemma within_guarantee_period_invariant_witness :
  within_guarantee_period sample_policy 24 = 0
  /\ within_guarantee_period sample_policy (24 + 1) = 0.
Proof.
  split; [reflexivity |].
  apply (within_guarantee_period_invariant sample_policy 24). reflexivity.
Defined.

(** C4.  Whenever the payment interval [12 // annuity_payment_frequency]
    is defined and not zero and [(duration_IF + t)] is not a multiple of
    it, [annuity_payment_per_policy(t)] returns 0. *)
Theorem annuity_payment_zero_off_payment_month
  (policy : Policy) (assumption : Assumption) (t : nat) :
  policy.(annuity_payment_frequency) <> 0 ->
  12 / policy.(annuity_payment_frequency) <> 0 ->
  (policy.(duration_IF) + Z.of_nat t)
    mod (12 / policy.(annuity_payment_frequency)) <> 0 ->
  annuity_payment_per_policy policy assumption t = Ok 0%R.
Proof. apply annuity_payment_off_month. Qed.

Lemma annuity_payment_zero_off_payment_month_witness :
  annuity_payment_per_policy sample_policy sample_assumption 5 = Ok 0%R.
Proof.
  apply (annuity_payment_zero_off_payment_month sample_policy
           sample_assumption 5); discriminate.
Defined.

(** C5.  Under fixed escalation ([escalation_type = 1]), at every payment
    month [t]: for [t < 12] the payment is the initial amount per payment
    period, [initial_annuity / frequency]; for [t >= 12] the payment at
    [t - 12] has a value and the payment at [t] is that value times
    [1 + escalation_rate].  With escalation rate 0.03, initial annuity
    1200, frequency 1 and duration 0 the payment at [t = 12] is 1236. *)
Theorem annuity_payment_fixed_escalation
  (policy : Policy) (assumption : Assumption) :
  policy.(escalation_type) = 1 ->
  (forall t,
      payment_month policy t ->
      ((t < 12)%nat ->
       annuity_payment_per_policy policy assumption t
       = initial_annuity_per_payment_period policy
       /\ initial_annuity_per_payment_period policy
          = Ok (policy.(initial_annuity)
                / IZR policy.(annuity_payment_frequency))%R)
      /\ ((12 <= t)%nat ->
          exists previous,
            annuity_payment_per_policy policy assumption (t - 12) = Ok previous
            /\ annuity_payment_per_policy policy assumption t
               = Ok (previous * (1 + policy.(escalation_rate)))%R))
  /\ (policy.(escalation_rate) = (3 / 100)%R ->
      policy.(initial_annuity) = 1200%R ->
      policy.(annuity_payment_frequency) = 1 ->
      policy.(duration_IF) = 0 ->
      annuity_payment_per_policy policy assumption 12 = Ok 1236%R).
Proof.
  intros Hesc. split.
  - intros t Hpm. split.
    + intros Hlt. split.
      * rewrite annuity_payment_on_month by assumption.
        rewrite Hesc. cbn [Z.eqb Pos.eqb].
        destruct (lt_dec t 12); [reflexivity | contradiction].
      * unfold initial_annuity_per_payment_period, truediv.
        destruct Hpm as (Hf & _).
        destruct (Z.eqb_spec (annuity_payment_frequency policy) 0);
          [contradiction | reflexivity].
    + intros Hge.
      pose proof (payment_month_previous_year policy t Hpm Hge) as Hprev.
      eexists. split.
      * apply annuity_payment_fixed_closed_form; assumption.
      * rewrite annuity_payment_on_month by assumption.
        rewrite Hesc. cbn [Z.eqb Pos.eqb].
        destruct (lt_dec t 12); [lia |].
        rewrite (annuity_payment_fixed_closed_form policy assumption (t - 12))
          by assumption.
        reflexivity.
  - intros Hrate Hinit Hfreq Hdur.
    rewrite annuity_payment_fixed_closed_form; [| assumption |].
    + rewrite Hrate, Hinit, Hfreq.
      change (12 / 12)%nat with 1%nat. f_equal. lra.
    + unfold payment_month. rewrite Hfreq, Hdur. repeat split; discriminate.
Qed.

Lemma annuity_payment_fixed_escalation_witness :
  (annuity_payment_per_policy sample_policy sample_assumption 0
   = Ok (1200 / 1)%R)
  /\ (exists previous,
         annuity_payment_per_policy sample_policy sample_assumption (24 - 12)
         = Ok previous
         /\ annuity_payment_per_policy sample_policy sample_assumption 24
            = Ok (previous * (1 + 3 / 100))%R)
  /\ annuity_payment_per_policy sample_policy sample_assumption 12
     = Ok 1236%R.
Proof.
  destruct (annuity_payment_fixed_escalation sample_policy sample_assumption
              eq_refl) as (Hrec & Hscenario).
  assert (Hpm : forall t, (Z.of_nat t mod 12 = 0) ->
                          payment_month sample_policy t).
  { intros t Ht. repeat split; [discriminate | discriminate | exact Ht]. }
  split; [| split].
  - destruct (Hrec 0%nat (Hpm 0%nat eq_refl)) as (Hbase & _).
    destruct (Hbase ltac:(repeat constructor)) as (H1 & H2).
    exact (eq_trans H1 H2).
  - destruct (Hrec 24%nat (Hpm 24%nat eq_refl)) as (_ & Hstep).
    apply Hstep. repeat constructor.
  - apply Hscenario; reflexivity.
Defined.

(** C6, counterexample.  An annual policy with [escalation_type = 3] and
    [duration_IF = 0]: [t = 1] is not a payment month, the function returns
    0 before it looks at the escalation type, and nothing is raised. *)
Lemma annuity_payment_unsupported_off_month :
  unsupported_policy.(escalation_type) = 3
  /\ annuity_payment_per_policy unsupported_policy sample_assumption 1
     = Ok 0%R.
Proof.
  split; [reflexivity |].
  apply annuity_payment_off_month; discriminate.
Qed.

(** C6, as amended.  At every payment month [t], when [escalation_type]
    is none of 0 (none), 1 (fixed), 2 (inflation-linked),
    [annuity_payment_per_policy(t)] raises a [ValueError] whose message is
    "Unsupported escalation_type: " followed by the offending value (two
    different values give two different messages), and a projection whose
    horizon includes [t] stops with an error instead of a liability. *)
Theorem annuity_payment_unsupported_escalation
  (policy : Policy) (assumption : Assumption) (t : nat) :
  policy.(escalation_type) <> 0 ->
  policy.(escalation_type) <> 1 ->
  policy.(escalation_type) <> 2 ->
  payment_month policy t ->
  annuity_payment_per_policy policy assumption t =
  Raise (ValueError ("Unsupported escalation_type: "
                     ++ str policy.(escalation_type)))
  /\ (forall other,
         ("Unsupported escalation_type: " ++ str other)%string
         = ("Unsupported escalation_type: "
            ++ str policy.(escalation_type))%string ->
         other = policy.(escalation_type))
  /\ (forall projection_length discount,
         (t <= projection_length)%nat ->
         exists e,
           liability policy assumption projection_length discount = Raise e).
Proof.
  intros H0 H1 H2 Hpm.
  pose proof (annuity_payment_unsupported policy assumption t H0 H1 H2 Hpm)
    as Hraise.
  split; [exact Hraise | split].
  - intros other Hmsg. apply str_inj.
    cbn [String.append] in Hmsg. now inversion Hmsg.
  - intros projection_length discount Ht.
    now apply (annuity_payment_raise_halts policy assumption
                 projection_length discount t _ (proj1 Hpm) Ht Hraise).
Qed.

Lemma annuity_payment_unsupported_escalation_witness :
  annuity_payment_per_policy unsupported_policy sample_assumption 12
  = Raise (ValueError "Unsupported escalation_type: 3")
  /\ exists e,
       liability unsupported_policy sample_assumption 24 discount_contract
       = Raise e.
Proof.
  destruct (annuity_payment_unsupported_escalation unsupported_policy
              sample_assumption 12)
    as (Hraise & _ & Hhalt); try discriminate.
  - repeat split; discriminate.
  - split; [exact Hraise |].
    apply Hhalt. repeat constructor.
Defined.

(** C7.  For every [t] in [0, T], entry [t] of
    [within_guarantee_period_array] equals [within_guarantee_period(t)];
    the array has [T + 1] entries. *)
Theorem within_guarantee_period_array_agrees
  (policy : Policy) (projection_length t : nat) :
  (t <= projection_length)%nat ->
  nth_error (within_guarantee_period_array policy projection_length) t
  = Some (within_guarantee_period policy t)
  /\ List.length (within_guarantee_period_array policy projection_length)
     = (projection_length + 1)%nat.
Proof.
  intros Ht. split.
  - now apply within_guarantee_period_array_nth.
  - unfold within_guarantee_period_array.
    now rewrite length_map, length_seq.
Qed.

Lemma within_guarantee_period_array_agrees_witness :
  nth_error (within_guarantee_period_array sample_policy 30) 23
  = Some (within_guarantee_period sample_policy 23)
  /\ nth_error (within_guarantee_period_array sample_policy 30) 24
     = Some (within_guarantee_period sample_policy 24).
Proof.
  split.
  - apply (within_guarantee_period_array_agrees sample_policy 30 23).
    repeat constructor.
  - apply (within_guarantee_period_array_agrees sample_policy 30 24).
    repeat constructor.
Defined.

(** C8.  [current_age] is an integer that never decreases as [t] grows
    and grows by exactly 1 over 12 steps:
    [current_age(t+12) = current_age(t) + 1].  With [age_at_entry = 65]
    and [duration_IF = 0], [current_age(t) = 65] for [t = 0..11] and
    [current_age(12) = 66]. *)
Theorem current_age_yearly (policy : Policy) :
  (forall s t, (s <= t)%nat -> current_age policy s <= current_age policy t)
  /\ (forall t, current_age policy (t + 12) = current_age policy t + 1)
  /\ (policy.(age_at_entry) = 65 ->
      policy.(duration_IF) = 0 ->
      (forall t, (t < 12)%nat -> current_age policy t = 65)
      /\ current_age policy 12 = 66).
Proof.
  split; [| split].
  - apply current_age_mono.
  - apply current_age_plus_12.
  - intros Hage Hdur.
    assert (Hbase : forall t, (t < 12)%nat -> current_age policy t = 65).
    { intros t Ht. rewrite current_age_base by assumption.
      rewrite Hage, Hdur, quot_12_div.
      destruct (Z.leb_spec 0 (65 * 12 + (0 + Z.of_nat t))); [| lia].
      Z.div_mod_to_equations. lia. }
    split; [exact Hbase |].
    change 12%nat with (0 + 12)%nat.
    rewrite current_age_plus_12, Hbase by lia. reflexivity.
Qed.

Lemma current_age_yearly_witness :
  current_age sample_policy 11 <= current_age sample_policy 30
  /\ current_age sample_policy 11 = 65
  /\ current_age sample_policy 12 = 66.
Proof.
  destruct (current_age_yearly sample_policy) as (Hmono & _ & Hscenario).
  destruct (Hscenario eq_refl eq_refl) as (Hbase & Hyear).
  split; [apply Hmono; repeat constructor |].
  split; [apply Hbase; repeat constructor | exact Hyear].
Defined.

(** C9.  Given a discounting primitive that returns one present value
    per cash flow, at every [t] in [0, T]:
    [EPV_total_expenses(t) = EPV_renewal_expenses(t) + EPV_investment_expenses(t)]
    and [EPV_liability(t) = EPV_annuity_benefit(t) + EPV_total_expenses(t)],
    each side raising exactly when the other does; and [liability] is
    [EPV_liability(0)]. *)
Theorem EPV_aggregation
  (policy : Policy) (assumption : Assumption) (projection_length : nat)
  (discount : list R -> list pynum -> list R) :
  (forall cash_flows factors,
      List.length factors = List.length cash_flows ->
      List.length (discount cash_flows factors) = List.length cash_flows) ->
  (forall t,
      (t <= projection_length)%nat ->
      at_t (EPV_total_expenses policy assumption projection_length discount) t
      = (renewal <- at_t (EPV_renewal_expenses policy assumption
                            projection_length discount) t ;;
         investment <- at_t (EPV_investment_expenses policy assumption
                               projection_length discount) t ;;
         Ok (renewal + investment)%R)
      /\ at_t (EPV_liability policy assumption projection_length discount) t
         = (benefit <- at_t (EPV_annuity_benefit policy assumption
                               projection_length discount) t ;;
            expenses <- at_t (EPV_total_expenses policy assumption
                                projection_length discount) t ;;
            Ok (benefit + expenses)%R))
  /\ liability policy assumption projection_length discount
     = at_t (EPV_liability policy assumption projection_length discount) 0.
Proof.
  intros Hlen. split; [| reflexivity].
  intros t Ht. split.
  - now apply EPV_total_expenses_at.
  - now apply EPV_liability_at.
Qed.

Lemma EPV_aggregation_witness :
  exists benefit expenses,
    at_t (EPV_annuity_benefit sample_policy sample_assumption 24
            discount_contract) 0 = Ok benefit
    /\ at_t (EPV_total_expenses sample_policy sample_assumption 24
               discount_contract) 0 = Ok expenses
    /\ liability sample_policy sample_assumption 24 discount_contract
       = Ok (benefit + expenses)%R.
Proof.
  destruct (EPV_aggregation sample_policy sample_assumption 24
              discount_contract
              (fun cash_flows factors _ =>
                 discount_contract_length cash_flows factors))
    as (Hsum & Hliability).
  destruct (Hsum 0%nat ltac:(repeat constructor)) as (_ & Hat).
  destruct sample_liability_defined as [v Hv].
  rewrite Hliability, Hat in *.
  destruct (at_t (EPV_annuity_benefit _ _ _ _) 0) as [benefit | e |];
    [| discriminate | discriminate].
  destruct (at_t (EPV_total_expenses _ _ _ _) 0) as [expenses | e |];
    [| discriminate | discriminate].
  exists benefit, expenses. repeat split.
Defined.

(** C10.  The same-age short-circuit of [death_rate] is a pure
    optimisation.  At every [t], [death_rate(t)] is what the part after the
    short-circuit computes at [t]; so for [current_age(t) <=
    max_mortality_age] it is
    [min(1.0, (1 - (1 - qx(current_age(t), gender))^(1/12)) * overlay)],
    and whenever the short-circuit is taken at [t+1] the value returned
    from [t] is the one direct recomputation at [t+1] gives. *)
Theorem death_rate_short_circuit_pure
  (policy : Policy) (assumption : Assumption) :
  (forall t,
      current_age policy t <= assumption.(max_mortality_age) ->
      death_rate policy assumption t = death_rate_direct policy assumption t)
  /\ (forall t,
         current_age policy (S t) = current_age policy t ->
         death_rate policy assumption (S t) = death_rate policy assumption t
         /\ death_rate policy assumption t
            = death_rate_lookup policy assumption (S t)).
Proof.
  split.
  - intros t Hle. rewrite death_rate_unfold.
    unfold death_rate_lookup, death_rate_direct.
    destruct (Z.leb_spec (current_age policy t) (max_mortality_age assumption));
      [reflexivity | lia].
  - intros t Hsame. split.
    + cbn [death_rate]. rewrite Hsame, Z.eqb_refl. reflexivity.
    + rewrite death_rate_unfold.
      apply death_rate_lookup_same_age. now symmetry.
Qed.

Lemma death_rate_short_circuit_pure_witness :
  death_rate sample_policy sample_assumption 7
  = death_rate_direct sample_policy sample_assumption 7
  /\ death_rate sample_policy sample_assumption 7
     = death_rate sample_policy sample_assumption 6.
Proof.
  destruct (death_rate_short_circuit_pure sample_policy sample_assumption)
    as (Hdirect & Hshort).
  split.
  - apply Hdirect. discriminate.
  - apply (Hshort 6%nat). reflexivity.
Defined.


(** ** Further properties of the series *)

(** *** Age *)

Lemma current_age_direct (policy : Policy) (t : nat) :
  0 <= policy.(age_at_entry) * 12 + policy.(duration_IF) ->
  current_age policy t
  = policy.(age_at_entry) + (policy.(duration_IF) + Z.of_nat t) / 12.
Proof.
  intros Hstart.
  induction t as [t IH] using (well_founded_induction lt_wf).
  destruct (lt_dec t 12) as [Hlt | Hge].
  - rewrite current_age_base by assumption. rewrite quot_12_div.
    destruct (Z.leb_spec 0 (age_at_entry policy * 12
                            + (duration_IF policy + Z.of_nat t))); [| lia].
    Z.div_mod_to_equations. lia.
  - rewrite current_age_step by lia. rewrite IH by lia.
    replace (Z.of_nat (t - 12)) with (Z.of_nat t - 12) by lia.
    Z.div_mod_to_equations. lia.
Qed.

(** X1.  When the policy starts at a non-negative number of months of
    life ([12 * age_at_entry + duration_IF >= 0]), the recurrence of
    [current_age] agrees at every [t] with the direct formula
    [age_at_entry + (duration_IF + t) // 12], and the age moves from one
    month to the next by 1 exactly when [duration_IF + t + 1] is a multiple
    of 12 and by 0 otherwise. *)
Theorem current_age_closed_form (policy : Policy) :
  0 <= policy.(age_at_entry) * 12 + policy.(duration_IF) ->
  forall t,
    current_age policy t
    = policy.(age_at_entry) + (policy.(duration_IF) + Z.of_nat t) / 12
    /\ current_age policy (t + 1)
       = current_age policy t
         + (if (policy.(duration_IF) + Z.of_nat t + 1) mod 12 =? 0
            then 1 else 0).
Proof.
  intros Hstart.
  pose proof (fun t => current_age_direct policy t Hstart) as Hclosed.
  intros t. split; [apply Hclosed |].
  rewrite !Hclosed.
  replace (Z.of_nat (t + 1)) with (Z.of_nat t + 1) by lia.
  destruct (Z.eqb_spec ((duration_IF policy + Z.of_nat t + 1) mod 12) 0);
    Z.div_mod_to_equations; lia.
Qed.

Lemma current_age_closed_form_witness :
  current_age monthly_policy 5 = 70 + (7 + 5) / 12
  /\ current_age monthly_policy (4 + 1) = current_age monthly_policy 4 + 1.
Proof.
  assert (Hstart : 0 <= monthly_policy.(age_at_entry) * 12
                        + monthly_policy.(duration_IF)) by discriminate.
  split.
  - exact (proj1 (current_age_closed_form monthly_policy Hstart 5%nat)).
  - exact (proj2 (current_age_closed_form monthly_policy Hstart 4%nat)).
Defined.

(** *** Mortality and survival *)

(** X2.  [death_rate] is constant over a year of age: two months with the
    same [current_age] have the same death rate, and raise the same error
    when they raise. *)
Theorem death_rate_same_age
  (policy : Policy) (assumption : Assumption) (s t : nat) :
  current_age policy s = current_age policy t ->
  death_rate policy assumption s = death_rate policy assumption t.
Proof.
  intros Hage. rewrite !death_rate_unfold.
  now apply death_rate_lookup_same_age.
Qed.

Lemma death_rate_same_age_witness :
  death_rate sample_policy sample_assumption 13
  = death_rate sample_policy sample_assumption 23.
Proof.
  apply (death_rate_same_age sample_policy sample_assumption 13 23).
  reflexivity.
Defined.

(** X3.  Once [current_age] has passed [max_mortality_age] at a month [t]
    where the in-force count has a value, the count is exactly 0 at every
    later month. *)
Theorem in_force_extinct
  (policy : Policy) (assumption : Assumption) (t : nat) (a : R) :
  assumption.(max_mortality_age) < current_age policy t ->
  expected_number_of_policies_IF policy assumption t = Ok a ->
  forall s, (t < s)%nat ->
            expected_number_of_policies_IF policy assumption s = Ok 0%R.
Proof.
  intros Hmax Ha s Hs.
  assert (Hdead : forall u, (t <= u)%nat ->
                            death_rate policy assumption u = Ok 1%R).
  { intros u Hu. apply death_rate_beyond_max.
    pose proof (current_age_mono policy t u Hu). lia. }
  induction Hs as [| s Hs IH].
  - cbn [expected_number_of_policies_IF]. rewrite Ha, Hdead by lia.
    cbn [bind]. f_equal. ring.
  - cbn [expected_number_of_policies_IF]. rewrite IH, Hdead by lia.
    cbn [bind]. f_equal. ring.
Qed.

Lemma in_force_extinct_witness :
  expected_number_of_policies_IF sample_policy sample_assumption 600 = Ok 0%R.
Proof.
  destruct (in_force_unit sample_policy sample_assumption 552
              (fun u _ => sample_mortality_valid u)) as [a [Ha _]].
  apply (in_force_extinct sample_policy sample_assumption 552 a).
  - reflexivity.
  - exact Ha.
  - apply Nat.ltb_lt. reflexivity.
Defined.

(** X4.  When the base table has no rate for [current_age(t)] and that
    age is within [max_mortality_age], [death_rate(t)] raises the lookup
    error of the table, and the in-force count raises at every later
    month: no value is produced past a failed lookup. *)
Theorem death_rate_missing_rate
  (policy : Policy) (assumption : Assumption) (t : nat) :
  current_age policy t <= assumption.(max_mortality_age) ->
  assumption.(mortality_base_table) (current_age policy t) (sex_key policy)
  = None ->
  death_rate policy assumption t = Raise (LookupError "mortality_base_table")
  /\ forall s, (t < s)%nat ->
       exists e, expected_number_of_policies_IF policy assumption s = Raise e.
Proof.
  intros Hage Hmissing.
  assert (Hraise : death_rate policy assumption t
                   = Raise (LookupError "mortality_base_table")).
  { rewrite death_rate_unfold. unfold death_rate_lookup.
    destruct (Z.leb_spec (current_age policy t) (max_mortality_age assumption));
      [| lia].
    rewrite Hmissing. reflexivity. }
  split; [exact Hraise |].
  intros s Hs. induction Hs as [| s Hs [e IH]].
  - cbn [expected_number_of_policies_IF]. rewrite Hraise.
    pose proof (in_force_finite policy assumption t) as Hfinite.
    destruct (expected_number_of_policies_IF policy assumption t);
      cbn [bind]; [eauto | eauto | contradiction].
  - cbn [expected_number_of_policies_IF]. rewrite IH. cbn [bind]. eauto.
Qed.

Lemma death_rate_missing_rate_witness :
  death_rate sample_policy empty_assumption 0
  = Raise (LookupError "mortality_base_table")
  /\ exists e,
       expected_number_of_policies_IF sample_policy empty_assumption 3
       = Raise e.
Proof.
  destruct (death_rate_missing_rate sample_policy empty_assumption 0)
    as (Hraise & Hlater).
  - discriminate.
  - reflexivity.
  - split; [exact Hraise |]. apply Hlater. repeat constructor.
Defined.

(** *** Guarantee period *)

Lemma guarantee_flags_from (d g : Z) (len s : nat) :
  map (fun t => Z.b2z (d + Z.of_nat t <? g)) (seq s len)
  = repeat 1 (Z.to_nat (Z.min (Z.of_nat len) (Z.max 0 (g - d - Z.of_nat s))))
    ++ repeat 0 (len - Z.to_nat (Z.min (Z.of_nat len)
                                   (Z.max 0 (g - d - Z.of_nat s)))).
Proof.
  revert s. induction len as [| len IH]; intros s.
  - replace (Z.to_nat (Z.min (Z.of_nat 0) (Z.max 0 (g - d - Z.of_nat s))))
      with 0%nat by lia.
    reflexivity.
  - cbn [seq map]. rewrite IH.
    destruct (Z.ltb_spec (d + Z.of_nat s) g) as [Hin | Hout]; cbn [Z.b2z].
    + replace (Z.to_nat (Z.min (Z.of_nat (S len))
                           (Z.max 0 (g - d - Z.of_nat s))))
        with (S (Z.to_nat (Z.min (Z.of_nat len)
                             (Z.max 0 (g - d - Z.of_nat (S s)))))) by lia.
      reflexivity.
    + replace (Z.to_nat (Z.min (Z.of_nat (S len))
                           (Z.max 0 (g - d - Z.of_nat s))))
        with 0%nat by lia.
      replace (Z.to_nat (Z.min (Z.of_nat len)
                           (Z.max 0 (g - d - Z.of_nat (S s)))))
        with 0%nat by lia.
      rewrite Nat.sub_0_r. reflexivity.
Qed.

(** X5.  [within_guarantee_period_array] is a block of ones followed by a
    block of zeros; the number of ones is the number of guaranteed months
    left at the valuation date, [initial_guarantee_term - duration_IF],
    cut to the range [0, T + 1]. *)
Theorem within_guarantee_period_array_shape
  (policy : Policy) (projection_length : nat) :
  let remaining :=
    Z.to_nat (Z.min (Z.of_nat (projection_length + 1))
                (Z.max 0 (policy.(initial_guarantee_term)
                          - policy.(duration_IF)))) in
  within_guarantee_period_array policy projection_length
  = repeat 1 remaining ++ repeat 0 (projection_length + 1 - remaining).
Proof.
  cbv zeta. unfold within_guarantee_period_array.
  rewrite guarantee_flags_from. cbn [Z.of_nat]. rewrite Z.sub_0_r.
  reflexivity.
Qed.

(** *** Expected annuity payment *)

(** X6.  Inside the guarantee period ([duration_IF + t <
    initial_guarantee_term]) the expected payment is the payment per policy
    itself, whatever the mortality tables hold, also when they are empty;
    from the end of the guarantee on it is the payment per policy times
    the in-force count. *)
Theorem expected_annuity_payment_guarantee
  (policy : Policy) (assumption : Assumption) (t : nat) :
  (policy.(duration_IF) + Z.of_nat t < policy.(initial_guarantee_term) ->
   expected_annuity_payment policy assumption t
   = annuity_payment_per_policy policy assumption t)
  /\ (policy.(initial_guarantee_term) <= policy.(duration_IF) + Z.of_nat t ->
      expected_annuity_payment policy assumption t
      = (payment <- annuity_payment_per_policy policy assumption t ;;
         in_force <- expected_number_of_policies_IF policy assumption t ;;
         Ok (payment * in_force)%R)).
Proof.
  unfold expected_annuity_payment. rewrite within_guarantee_period_raw.
  split; intros H.
  - destruct (Z.ltb_spec (duration_IF policy + Z.of_nat t)
                (initial_guarantee_term policy)); [reflexivity | lia].
  - destruct (Z.ltb_spec (duration_IF policy + Z.of_nat t)
                (initial_guarantee_term policy)); [lia | reflexivity].
Qed.

Lemma expected_annuity_payment_guarantee_witness :
  expected_annuity_payment sample_policy empty_assumption 12 = Ok 1236%R
  /\ expected_annuity_payment sample_policy sample_assumption 30
     = (payment <- annuity_payment_per_policy sample_policy
                     sample_assumption 30 ;;
        in_force <- expected_number_of_policies_IF sample_policy
                      sample_assumption 30 ;;
        Ok (payment * in_force)%R).
Proof.
  split.
  - rewrite (proj1 (expected_annuity_payment_guarantee sample_policy
                      empty_assumption 12) eq_refl).
    rewrite annuity_payment_fixed_closed_form;
      [| reflexivity | repeat split; discriminate].
    f_equal. cbn. lra.
  - apply (proj2 (expected_annuity_payment_guarantee sample_policy
                    sample_assumption 30)).
    discriminate.
Defined.

(** X7.  A payment per policy that has a non-negative value [p] gives an
    expected payment with a value between 0 and [p], provided that, when
    [t] lies past the guarantee period, the mortality tables serve every
    month before [t] (a rate in [0, 1] for each age reached within
    [max_mortality_age], and an overlay factor that is not negative).
    Inside the guarantee period no table is needed. *)
Theorem expected_annuity_payment_bounded
  (policy : Policy) (assumption : Assumption) (t : nat) (p : R) :
  (policy.(initial_guarantee_term) <= policy.(duration_IF) + Z.of_nat t ->
   mortality_valid_before policy assumption t) ->
  annuity_payment_per_policy policy assumption t = Ok p ->
  (0 <= p)%R ->
  exists e,
    expected_annuity_payment policy assumption t = Ok e
    /\ (0 <= e <= p)%R.
Proof.
  intros Hvalid Hp Hp0. unfold expected_annuity_payment.
  rewrite within_guarantee_period_raw, Hp.
  destruct (Z.ltb_spec (duration_IF policy + Z.of_nat t)
              (initial_guarantee_term policy)) as [Hin | Hout];
    cbn [Z.b2z Z.eqb negb bind].
  - exists p. split; [reflexivity | lra].
  - destruct (in_force_unit policy assumption t (Hvalid Hout))
      as [a [-> Ha]].
    cbn [bind]. exists (p * a)%R. split; [reflexivity | nra].
Qed.

Lemma expected_annuity_payment_bounded_witness :
  (exists e,
      expected_annuity_payment sample_policy sample_assumption 36 = Ok e
      /\ (0 <= e <= 1200 / 1 * (1 + 3 / 100) ^ 3)%R)
  /\ (exists e,
         expected_annuity_payment sample_policy empty_assumption 12 = Ok e
         /\ (0 <= e <= 1200 / 1 * (1 + 3 / 100) ^ 1)%R).
Proof.
  split.
  - apply (expected_annuity_payment_bounded sample_policy sample_assumption
             36).
    + intros _ u _. apply sample_mortality_valid.
    + apply annuity_payment_fixed_closed_form;
        [reflexivity | repeat split; discriminate].
    + cbn. lra.
  - apply (expected_annuity_payment_bounded sample_policy empty_assumption
             12).
    + intros Hout. exfalso. apply Hout. reflexivity.
    + apply annuity_payment_fixed_closed_form;
        [reflexivity | repeat split; discriminate].
    + cbn. lra.
Defined.

(** *** Payment per policy *)

Section PaymentSchedule.

Variable policy : Policy.
Variable assumption : Assumption.

(** Without escalation the payment is one of two values. *)
Lemma annuity_payment_none (t : nat) :
  policy.(escalation_type) = 0 ->
  policy.(annuity_payment_frequency) <> 0 ->
  12 / policy.(annuity_payment_frequency) <> 0 ->
  annuity_payment_per_policy policy assumption t
  = Ok (if (policy.(duration_IF) + Z.of_nat t)
             mod (12 / policy.(annuity_payment_frequency)) =? 0
        then policy.(initial_annuity) / IZR policy.(annuity_payment_frequency)
        else 0)%R.
Proof.
  intros Hesc Hf Hi.
  destruct (Z.eqb_spec ((duration_IF policy + Z.of_nat t)
                        mod (12 / annuity_payment_frequency policy)) 0)
    as [Hon | Hoff].
  - rewrite annuity_payment_on_month by (repeat split; assumption).
    rewrite Hesc. cbn [Z.eqb]. unfold truediv.
    destruct (Z.eqb_spec (annuity_payment_frequency policy) 0);
      [contradiction | reflexivity].
  - now apply annuity_payment_off_month.
Qed.

(** A payment interval of zero, or an infinite one away from
    [duration_IF + t = 0], closes the payment-month gate. *)
Lemma annuity_payment_gate_closed (t : nat) :
  is_zero (mod_ (policy.(duration_IF) + Z.of_nat t)
             (floordiv 12 policy.(annuity_payment_frequency))) = false ->
  annuity_payment_per_policy policy assumption t = Ok 0%R.
Proof.
  intros Hgate. rewrite annuity_payment_per_policy_equation_1. cbv zeta.
  rewrite Hgate. reflexivity.
Qed.

End PaymentSchedule.

(** X8.  Without escalation ([escalation_type = 0]) and with 12 payments
    a year, every month is a payment month and the payment is
    [initial_annuity / 12] at every [t], whatever [duration_IF] is. *)
Theorem annuity_payment_level_monthly
  (policy : Policy) (assumption : Assumption) (t : nat) :
  policy.(escalation_type) = 0 ->
  policy.(annuity_payment_frequency) = 12 ->
  annuity_payment_per_policy policy assumption t
  = Ok (policy.(initial_annuity) / 12)%R.
Proof.
  intros Hesc Hf.
  rewrite annuity_payment_none; rewrite ?Hf; try discriminate; try assumption.
  change (12 / 12) with 1. rewrite Z.mod_1_r. reflexivity.
Qed.

Lemma annuity_payment_level_monthly_witness :
  annuity_payment_per_policy monthly_policy empty_assumption 17
  = Ok (1200 / 12)%R.
Proof.
  apply (annuity_payment_level_monthly monthly_policy empty_assumption 17);
    reflexivity.
Defined.

(** X9.  A payment frequency above 12 has the payment interval
    [12 // frequency = 0]; the modulo by it is [nan], no month passes the
    payment-month test, and [annuity_payment_per_policy] returns 0 at every
    [t], whatever the escalation type, supported or not.  With a frequency
    of 0 the interval is infinite: the payment is 0 at every month with
    [duration_IF + t <> 0], and at a month with [duration_IF + t = 0] the
    payment without escalation, [initial_annuity / 0], is not finite.
    Nothing is raised in any of these cases. *)
Theorem annuity_payment_frequency_out_of_range
  (policy : Policy) (assumption : Assumption) (t : nat) :
  (12 < policy.(annuity_payment_frequency) ->
   annuity_payment_per_policy policy assumption t = Ok 0%R)
  /\ (policy.(annuity_payment_frequency) = 0 ->
      policy.(duration_IF) + Z.of_nat t <> 0 ->
      annuity_payment_per_policy policy assumption t = Ok 0%R)
  /\ (policy.(annuity_payment_frequency) = 0 ->
      policy.(duration_IF) + Z.of_nat t = 0 ->
      policy.(escalation_type) = 0 ->
      annuity_payment_per_policy policy assumption t = NotFinite).
Proof.
  split; [| split].
  - intros Hf. apply annuity_payment_gate_closed.
    apply payment_month_test_zero_interval; [lia |].
    apply Z.div_small. lia.
  - intros Hf Hx. apply annuity_payment_gate_closed.
    rewrite Hf. cbn [floordiv Z.eqb Z.ltb Z.compare mod_].
    destruct (Z.leb_spec 0 (duration_IF policy + Z.of_nat t));
      [| reflexivity].
    cbn [is_zero]. now apply Z.eqb_neq.
  - intros Hf Hx Hesc.
    rewrite annuity_payment_per_policy_equation_1. cbv zeta.
    rewrite Hf, Hx, Hesc. reflexivity.
Qed.

Lemma annuity_payment_frequency_out_of_range_witness :
  annuity_payment_per_policy weekly_policy sample_assumption 0 = Ok 0%R
  /\ annuity_payment_per_policy unpaid_policy sample_assumption 5 = Ok 0%R
  /\ annuity_payment_per_policy unpaid_policy sample_assumption 0
     = NotFinite.
Proof.
  split; [| split].
  - apply (proj1 (annuity_payment_frequency_out_of_range weekly_policy
                    sample_assumption 0)).
    reflexivity.
  - apply (proj1 (proj2 (annuity_payment_frequency_out_of_range unpaid_policy
                           sample_assumption 5))).
    + reflexivity.
    + discriminate.
  - apply (proj2 (proj2 (annuity_payment_frequency_out_of_range unpaid_policy
                           sample_assumption 0))); reflexivity.
Defined.

Lemma mapM_values {A B : Type} (f : A -> result B) (g : A -> B) (l : list A) :
  (forall a, f a = Ok (g a)) -> mapM f l = Ok (map g l).
Proof.
  intros Hf. induction l as [| a l IH]; [reflexivity |].
  cbn [mapM map]. now rewrite Hf, IH.
Qed.

(** Over 12 consecutive months, the months that an interval dividing 12
    selects carry [12 / interval] amounts. *)
Lemma year_sum (i n : Z) (x : R) :
  i = 1 \/ i = 2 \/ i = 3 \/ i = 4 \/ i = 6 \/ i = 12 ->
  fold_right Rplus 0%R
    (map (fun k => if (n + Z.of_nat k) mod i =? 0 then x else 0%R) (seq 0 12))
  = (IZR (12 / i) * x)%R.
Proof.
  intros Hi.
  assert (Hper : forall k,
             (n + Z.of_nat k) mod i = (n mod i + Z.of_nat k) mod i).
  { intros k. now rewrite Zplus_mod_idemp_l. }
  cbn [seq map fold_right]. rewrite !Hper.
  assert (Hr : 0 <= n mod i < i) by (apply Z.mod_pos_bound; lia).
  generalize dependent (n mod i). intros r _ Hr.
  assert (Hcases : r = 0 \/ r = 1 \/ r = 2 \/ r = 3 \/ r = 4 \/ r = 5
                   \/ r = 6 \/ r = 7 \/ r = 8 \/ r = 9 \/ r = 10 \/ r = 11)
    by lia.
  repeat (destruct Hi as [-> | Hi]); try subst i;
    repeat (destruct Hcases as [-> | Hcases]); try subst r;
    try lia; cbn; lra.
Qed.

(** X10.  Without escalation, when the payment frequency divides 12 (it is
    1, 2, 3, 4, 6 or 12), the payments of any 12 consecutive months
    [s, ..., s + 11] all have a value and add up to [initial_annuity]:
    exactly one annual amount is paid per year, wherever the year starts. *)
Theorem annuity_payment_year_total
  (policy : Policy) (assumption : Assumption) (s : nat) :
  policy.(escalation_type) = 0 ->
  policy.(annuity_payment_frequency) = 1
  \/ policy.(annuity_payment_frequency) = 2
  \/ policy.(annuity_payment_frequency) = 3
  \/ policy.(annuity_payment_frequency) = 4
  \/ policy.(annuity_payment_frequency) = 6
  \/ policy.(annuity_payment_frequency) = 12 ->
  exists payments,
    mapM (fun k => annuity_payment_per_policy policy assumption (s + k))
         (seq 0 12) = Ok payments
    /\ fold_right Rplus 0%R payments = policy.(initial_annuity).
Proof.
  intros Hesc Hf.
  set (i := 12 / annuity_payment_frequency policy).
  set (x := (initial_annuity policy
             / IZR (annuity_payment_frequency policy))%R).
  assert (Hi : (i = 1 \/ i = 2 \/ i = 3 \/ i = 4 \/ i = 6 \/ i = 12)
               /\ (IZR (12 / i) * x)%R = initial_annuity policy).
  { subst i x.
    repeat (destruct Hf as [-> | Hf]); try rewrite Hf;
      (split; [cbn; tauto | cbn; field]). }
  destruct Hi as [Hi Htotal].
  exists (map (fun k => if (policy.(duration_IF) + Z.of_nat s + Z.of_nat k)
                           mod i =? 0 then x else 0%R) (seq 0 12)).
  split.
  - apply mapM_values. intros k.
    rewrite annuity_payment_none; try assumption; fold i; try lia.
    rewrite Nat2Z.inj_add, Z.add_assoc. reflexivity.
  - rewrite year_sum by assumption. exact Htotal.
Qed.

Lemma annuity_payment_year_total_witness :
  exists payments,
    mapM (fun k => annuity_payment_per_policy monthly_policy
                     sample_assumption (5 + k))
         (seq 0 12) = Ok payments
    /\ fold_right Rplus 0%R payments = 1200%R.
Proof.
  apply (annuity_payment_year_total monthly_policy sample_assumption 5).
  - reflexivity.
  - do 5 right. reflexivity.
Defined.

(** X11.  The payment per policy reads the assumption set only through
    [inflation_forward], and only at the keys [t - 12], [t - 24], ... that
    are not negative: two assumption sets that agree there give the same
    payment, or the same error, at [t]. *)
Theorem annuity_payment_reads_inflation_only
  (policy : Policy) (assumption1 assumption2 : Assumption) (t : nat) :
  (forall k, (1 <= k)%nat -> (12 * k <= t)%nat ->
             assumption1.(inflation_forward) (Z.of_nat t - 12 * Z.of_nat k)
             = assumption2.(inflation_forward) (Z.of_nat t - 12 * Z.of_nat k)) ->
  annuity_payment_per_policy policy assumption1 t
  = annuity_payment_per_policy policy assumption2 t.
Proof.
  induction t as [t IH] using (well_founded_induction lt_wf).
  intros Hkeys.
  rewrite (annuity_payment_per_policy_equation_1 policy assumption1 t),
    (annuity_payment_per_policy_equation_1 policy assumption2 t).
  cbv zeta.
  destruct (negb _); [reflexivity |].
  destruct (_ =? 0); [reflexivity |].
  assert (Hprev : ~ (t < 12)%nat ->
            annuity_payment_per_policy policy assumption1 (t - 12)
            = annuity_payment_per_policy policy assumption2 (t - 12)).
  { intros Hge. apply IH; [lia |]. intros k Hk1 Hk2.
    replace (Z.of_nat (t - 12) - 12 * Z.of_nat k)
      with (Z.of_nat t - 12 * Z.of_nat (S k)) by lia.
    apply Hkeys; lia. }
  destruct (_ =? 1).
  - destruct (lt_dec t 12); [reflexivity |]. now rewrite Hprev.
  - destruct (_ =? 2); [| reflexivity].
    destruct (lt_dec t 12); [reflexivity |]. rewrite Hprev by assumption.
    replace (Z.of_nat t - 12) with (Z.of_nat t - 12 * Z.of_nat 1) by lia.
    rewrite Hkeys by lia. reflexivity.
Qed.

Lemma annuity_payment_reads_inflation_only_witness :
  annuity_payment_per_policy sample_policy sample_assumption 24
  = annuity_payment_per_policy sample_policy negative_overlay_assumption 24.
Proof.
  apply (annuity_payment_reads_inflation_only sample_policy sample_assumption
           negative_overlay_assumption 24).
  intros k _ _. reflexivity.
Defined.

(** X12.  Inflation-linked escalation on a flat inflation curve is fixed
    escalation at that rate: when the keys [t - 12], [t - 24], ... of
    [inflation_forward] that are not negative all hold the same rate [r],
    a policy with [escalation_type = 2] is paid at [t] what the same policy
    with [escalation_type = 1] and [escalation_rate = r] is paid. *)
Theorem annuity_payment_flat_inflation
  (policy : Policy) (assumption : Assumption) (r : R) (t : nat) :
  policy.(escalation_type) = 2 ->
  (forall k, (1 <= k)%nat -> (12 * k <= t)%nat ->
             assumption.(inflation_forward) (Z.of_nat t - 12 * Z.of_nat k)
             = Some r) ->
  annuity_payment_per_policy policy assumption t
  = annuity_payment_per_policy
      {| age_at_entry := policy.(age_at_entry);
         gender := policy.(gender);
         initial_guarantee_term := policy.(initial_guarantee_term);
         initial_annuity := policy.(initial_annuity);
         escalation_type := 1;
         escalation_rate := r;
         annuity_payment_frequency := policy.(annuity_payment_frequency);
         duration_IF := policy.(duration_IF) |}
      assumption t.
Proof.
  intros Hesc.
  induction t as [t IH] using (well_founded_induction lt_wf).
  intros Hflat.
  rewrite (annuity_payment_per_policy_equation_1 policy assumption t),
    (annuity_payment_per_policy_equation_1 _ assumption t).
  cbv zeta.
  unfold initial_annuity_per_payment_period.
  cbn [annuity_payment_frequency duration_IF escalation_type escalation_rate
       initial_annuity].
  rewrite Hesc.
  destruct (negb _); [reflexivity |].
  cbn [Z.eqb Pos.eqb].
  destruct (lt_dec t 12); [reflexivity |].
  rewrite <- IH.
  - specialize (Hflat 1%nat ltac:(lia) ltac:(lia)).
    replace (Z.of_nat t - 12 * Z.of_nat 1) with (Z.of_nat t - 12) in Hflat
      by lia.
    rewrite Hflat. cbn [lookup].
    destruct (annuity_payment_per_policy policy assumption (t - 12));
      reflexivity.
  - lia.
  - intros k Hk1 Hk2.
    replace (Z.of_nat (t - 12) - 12 * Z.of_nat k)
      with (Z.of_nat t - 12 * Z.of_nat (S k)) by lia.
    apply Hflat; lia.
Qed.

Lemma annuity_payment_flat_inflation_witness :
  annuity_payment_per_policy indexed_policy sample_assumption 15
  = annuity_payment_per_policy
      {| age_at_entry := 60; gender := 0; initial_guarantee_term := 0;
         initial_annuity := 4000; escalation_type := 1;
         escalation_rate := 2 / 100; annuity_payment_frequency := 4;
         duration_IF := 0 |}
      sample_assumption 15.
Proof.
  apply (annuity_payment_flat_inflation indexed_policy sample_assumption
           (2 / 100) 15).
  - reflexivity.
  - intros k _ _. reflexivity.
Defined.

(** X13.  Under inflation-linked escalation, at a payment month
    [t >= 12] whose payment a year earlier has the value [p]: the payment
    is [p * (1 + i)] where [i] is the inflation rate stored under key
    [t - 12], and when that key is missing the lookup error of
    [inflation_forward] is raised. *)
Theorem annuity_payment_inflation_linked
  (policy : Policy) (assumption : Assumption) (t : nat) (p : R) :
  policy.(escalation_type) = 2 ->
  payment_month policy t ->
  (12 <= t)%nat ->
  annuity_payment_per_policy policy assumption (t - 12) = Ok p ->
  (forall i,
      assumption.(inflation_forward) (Z.of_nat t - 12) = Some i ->
      annuity_payment_per_policy policy assumption t = Ok (p * (1 + i))%R)
  /\ (assumption.(inflation_forward) (Z.of_nat t - 12) = None ->
      annuity_payment_per_policy policy assumption t
      = Raise (LookupError "inflation_forward")).
Proof.
  intros Hesc Hpm Ht Hp.
  rewrite annuity_payment_on_month by assumption.
  rewrite Hesc, Hp. cbn [Z.eqb Pos.eqb bind].
  destruct (lt_dec t 12); [lia |].
  split.
  - intros i ->. reflexivity.
  - intros ->. reflexivity.
Qed.

Lemma annuity_payment_inflation_linked_witness :
  annuity_payment_per_policy indexed_policy sample_assumption 15
  = Ok (4000 / 4 * (1 + 2 / 100))%R
  /\ annuity_payment_per_policy indexed_policy empty_assumption 15
     = Raise (LookupError "inflation_forward").
Proof.
  assert (Hpm : payment_month indexed_policy 15)
    by (repeat split; discriminate).
  assert (Hpm3 : payment_month indexed_policy 3)
    by (repeat split; discriminate).
  assert (Hprev : forall assumption,
             annuity_payment_per_policy indexed_policy assumption (15 - 12)
             = Ok (4000 / 4)%R).
  { intros assumption. rewrite annuity_payment_on_month by exact Hpm3.
    reflexivity. }
  split.
  - apply (proj1 (annuity_payment_inflation_linked indexed_policy
                    sample_assumption 15 _ eq_refl Hpm
                    ltac:(repeat constructor) (Hprev _))).
    reflexivity.
  - apply (proj2 (annuity_payment_inflation_linked indexed_policy
                    empty_assumption 15 _ eq_refl Hpm
                    ltac:(repeat constructor) (Hprev _))).
    reflexivity.
Defined.

(** *** Renewal expenses *)

Section RenewalExpense.

Variable policy : Policy.
Variable assumption : Assumption.

Lemma renewal_expense_off_anniversary (t : nat) :
  (policy.(duration_IF) + Z.of_nat t) mod 12 <> 0 ->
  renewal_expense_per_policy policy assumption t = Ok 0%R.
Proof.
  intros Hoff. rewrite renewal_expense_per_policy_equation_1. cbv zeta.
  destruct (Z.eqb_spec ((duration_IF policy + Z.of_nat t) mod 12) 0);
    [contradiction | reflexivity].
Qed.

Lemma renewal_expense_on_anniversary (t : nat) :
  (policy.(duration_IF) + Z.of_nat t) mod 12 = 0 ->
  renewal_expense_per_policy policy assumption t
  = if lt_dec t 12 then base_renewal_expense assumption
    else
      previous_expense <- renewal_expense_per_policy policy assumption
                            (t - 12) ;;
      inflation <- lookup "inflation_forward"
                     (assumption.(inflation_forward) (Z.of_nat t - 12)) ;;
      margin <- renewal_expense_inflation_margin assumption ;;
      Ok (previous_expense * (1 + inflation + margin))%R.
Proof.
  intros Hon. rewrite renewal_expense_per_policy_equation_1 at 1. cbv zeta.
  rewrite Hon. cbn [Z.eqb negb]. destruct (lt_dec t 12); reflexivity.
Qed.

Lemma anniversary_previous_year (t : nat) :
  (12 <= t)%nat ->
  (policy.(duration_IF) + Z.of_nat t) mod 12 = 0 ->
  (policy.(duration_IF) + Z.of_nat (t - 12)) mod 12 = 0.
Proof.
  intros Ht Hon.
  replace (Z.of_nat (t - 12)) with (Z.of_nat t - 12) by lia.
  Z.div_mod_to_equations. lia.
Qed.

End RenewalExpense.

(** The renewal expense month by month: nothing off the anniversaries,
    the base expense in the first projection year, one escalation step per
    year after it. *)
Lemma renewal_expense_by_year
  (policy : Policy) (assumption : Assumption) (t : nat) (b m : R) :
  ((policy.(duration_IF) + Z.of_nat t) mod 12 <> 0 ->
   renewal_expense_per_policy policy assumption t = Ok 0%R)
  /\ ((policy.(duration_IF) + Z.of_nat t) mod 12 = 0 ->
      assumption.(expense_renewal_expense) = Some b ->
      ((t < 12)%nat ->
       renewal_expense_per_policy policy assumption t = Ok b)
      /\ ((12 <= t)%nat ->
          assumption.(expense_inflation_margin) = Some m ->
          (forall k, (1 <= k)%nat -> (12 * k <= t)%nat ->
                     exists i, assumption.(inflation_forward)
                                 (Z.of_nat t - 12 * Z.of_nat k) = Some i) ->
          exists previous i,
            renewal_expense_per_policy policy assumption (t - 12) = Ok previous
            /\ assumption.(inflation_forward) (Z.of_nat t - 12) = Some i
            /\ renewal_expense_per_policy policy assumption t
               = Ok (previous * (1 + i + m))%R)).
Proof.
  split; [apply renewal_expense_off_anniversary |].
  intros Hon Hb. split.
  - intros Hlt. rewrite renewal_expense_on_anniversary by assumption.
    destruct (lt_dec t 12); [| contradiction].
    unfold base_renewal_expense. now rewrite Hb.
  - intros Hge Hm Hkeys.
    destruct (renewal_expense_defined policy assumption (t - 12)
                (ex_intro _ b Hb) (ex_intro _ m Hm))
      as [previous Hprev].
    { intros k Hk1 Hk2.
      replace (Z.of_nat (t - 12) - 12 * Z.of_nat k)
        with (Z.of_nat t - 12 * Z.of_nat (S k)) by lia.
      apply Hkeys; lia. }
    destruct (Hkeys 1%nat ltac:(lia) ltac:(lia)) as [i Hi].
    replace (Z.of_nat t - 12 * Z.of_nat 1) with (Z.of_nat t - 12) in Hi
      by lia.
    exists previous, i. repeat split; try assumption.
    rewrite renewal_expense_on_anniversary by assumption.
    destruct (lt_dec t 12); [lia |].
    unfold renewal_expense_inflation_margin.
    now rewrite Hprev, Hi, Hm.
Qed.

(** X14.  The renewal expense is 0 in every month that is not a policy
    anniversary, also when the expense and inflation tables are empty.
    On an anniversary, with the base expense [b] present: the expense is
    [b] for [t < 12]; and for [t >= 12], with the margin [m] and the
    inflation keys [t - 12], [t - 24], ... that are not negative present,
    the expense of a year earlier has a value and the expense at [t] is
    that value times [1 + inflation_forward[t - 12] + m]. *)
Theorem renewal_expense_schedule
  (policy : Policy) (assumption : Assumption) (t : nat) (b m : R) :
  ((policy.(duration_IF) + Z.of_nat t) mod 12 <> 0 ->
   renewal_expense_per_policy policy assumption t = Ok 0%R)
  /\ ((policy.(duration_IF) + Z.of_nat t) mod 12 = 0 ->
      assumption.(expense_renewal_expense) = Some b ->
      ((t < 12)%nat ->
       renewal_expense_per_policy policy assumption t = Ok b)
      /\ ((12 <= t)%nat ->
          assumption.(expense_inflation_margin) = Some m ->
          (forall k, (1 <= k)%nat -> (12 * k <= t)%nat ->
                     exists i, assumption.(inflation_forward)
                                 (Z.of_nat t - 12 * Z.of_nat k) = Some i) ->
          exists previous i,
            renewal_expense_per_policy policy assumption (t - 12) = Ok previous
            /\ assumption.(inflation_forward) (Z.of_nat t - 12) = Some i
            /\ renewal_expense_per_policy policy assumption t
               = Ok (previous * (1 + i + m))%R)).
Proof. apply renewal_expense_by_year. Qed.

Lemma renewal_expense_schedule_witness :
  renewal_expense_per_policy sample_policy empty_assumption 5 = Ok 0%R
  /\ renewal_expense_per_policy sample_policy sample_assumption 0 = Ok 50%R
  /\ exists previous i,
       renewal_expense_per_policy sample_policy sample_assumption (24 - 12)
       = Ok previous
       /\ sample_assumption.(inflation_forward) (Z.of_nat 24 - 12) = Some i
       /\ renewal_expense_per_policy sample_policy sample_assumption 24
          = Ok (previous * (1 + i + 1 / 100))%R.
Proof.
  split; [| split].
  - apply (proj1 (renewal_expense_schedule sample_policy empty_assumption 5
                    0 0)).
    discriminate.
  - apply (proj2 (renewal_expense_schedule sample_policy sample_assumption 0
                    50 (1 / 100)) eq_refl eq_refl).
    repeat constructor.
  - apply (proj2 (renewal_expense_schedule sample_policy sample_assumption 24
                    50 (1 / 100)) eq_refl eq_refl).
    + repeat constructor.
    + reflexivity.
    + intros k _ _. eexists. reflexivity.
Defined.

(** X15.  When the base expense is not negative and, at each of the
    inflation keys [t - 12], [t - 24], ... that are not negative, a rate is
    present whose sum with the margin is not negative, the renewal expense
    at an anniversary [t >= 12] is not negative and not below the expense
    of the previous anniversary. *)
Theorem renewal_expense_never_decreases
  (policy : Policy) (assumption : Assumption) (b m : R) (t : nat) :
  assumption.(expense_renewal_expense) = Some b ->
  assumption.(expense_inflation_margin) = Some m ->
  (0 <= b)%R ->
  (forall k, (1 <= k)%nat -> (12 * k <= t)%nat ->
             exists i,
               assumption.(inflation_forward) (Z.of_nat t - 12 * Z.of_nat k)
               = Some i
               /\ (0 <= i + m)%R) ->
  (policy.(duration_IF) + Z.of_nat t) mod 12 = 0 ->
  (12 <= t)%nat ->
  exists previous current,
    renewal_expense_per_policy policy assumption (t - 12) = Ok previous
    /\ renewal_expense_per_policy policy assumption t = Ok current
    /\ (0 <= previous <= current)%R.
Proof.
  intros Hb Hm Hb0.
  assert (Hnonneg : forall u,
             (forall k, (1 <= k)%nat -> (12 * k <= u)%nat ->
                        exists i,
                          assumption.(inflation_forward)
                            (Z.of_nat u - 12 * Z.of_nat k) = Some i
                          /\ (0 <= i + m)%R) ->
             (policy.(duration_IF) + Z.of_nat u) mod 12 = 0 ->
             exists v, renewal_expense_per_policy policy assumption u = Ok v
                       /\ (0 <= v)%R).
  { induction u as [u IH] using (well_founded_induction lt_wf).
    intros Hinfl Hon.
    destruct (renewal_expense_by_year policy assumption u b m)
      as [_ Hsched].
    destruct (Hsched Hon Hb) as [Hbase Hstep].
    destruct (lt_dec u 12) as [Hlt | Hge].
    - exists b. split; [now apply Hbase | assumption].
    - destruct (Hstep ltac:(lia) Hm) as (previous & i & Hprev & Hi & Hcur).
      { intros k Hk1 Hk2. destruct (Hinfl k Hk1 Hk2) as (j & Hj & _). eauto. }
      destruct (IH (u - 12)%nat ltac:(lia)) as (v & Hv & Hv0).
      { intros k Hk1 Hk2.
        replace (Z.of_nat (u - 12) - 12 * Z.of_nat k)
          with (Z.of_nat u - 12 * Z.of_nat (S k)) by lia.
        apply Hinfl; lia. }
      { apply anniversary_previous_year; [lia | assumption]. }
      rewrite Hprev in Hv. injection Hv as <-.
      destruct (Hinfl 1%nat ltac:(lia) ltac:(lia)) as (i' & Hi' & Him).
      replace (Z.of_nat u - 12 * Z.of_nat 1) with (Z.of_nat u - 12) in Hi'
        by lia.
      rewrite Hi in Hi'. injection Hi' as <-.
      eexists. split; [exact Hcur |]. apply Rmult_le_pos; lra. }
  intros Hinfl Hon Hge.
  destruct (renewal_expense_by_year policy assumption t b m) as [_ Hsched].
  destruct (Hsched Hon Hb) as [_ Hstep].
  destruct (Hstep Hge Hm) as (previous & i & Hprev & Hi & Hcur).
  { intros k Hk1 Hk2. destruct (Hinfl k Hk1 Hk2) as (j & Hj & _). eauto. }
  destruct (Hnonneg (t - 12)%nat) as (v & Hv & Hv0).
  { intros k Hk1 Hk2.
    replace (Z.of_nat (t - 12) - 12 * Z.of_nat k)
      with (Z.of_nat t - 12 * Z.of_nat (S k)) by lia.
    apply Hinfl; lia. }
  { now apply anniversary_previous_year. }
  rewrite Hprev in Hv. injection Hv as <-.
  destruct (Hinfl 1%nat ltac:(lia) ltac:(lia)) as (i' & Hi' & Him).
  replace (Z.of_nat t - 12 * Z.of_nat 1) with (Z.of_nat t - 12) in Hi'
    by lia.
  rewrite Hi in Hi'. injection Hi' as <-.
  exists previous, (previous * (1 + i + m))%R.
  repeat split; try assumption. nra.
Qed.

Lemma renewal_expense_never_decreases_witness :
  exists previous current,
    renewal_expense_per_policy sample_policy sample_assumption (36 - 12)
    = Ok previous
    /\ renewal_expense_per_policy sample_policy sample_assumption 36
       = Ok current
    /\ (0 <= previous <= current)%R.
Proof.
  apply (renewal_expense_never_decreases sample_policy sample_assumption
           50 (1 / 100) 36); try reflexivity.
  - lra.
  - intros k _ _. exists (2 / 100)%R. split; [reflexivity | lra].
  - repeat constructor.
Defined.

(** X16.  In a month that is not a policy anniversary the expected
    renewal expense is 0 when the in-force count has a value, and raises
    the error of the in-force count when that one raises: the
    multiplication by a zero expense does not skip the mortality lookups. *)
Theorem expected_renewal_expense_off_anniversary
  (policy : Policy) (assumption : Assumption) (t : nat) :
  (policy.(duration_IF) + Z.of_nat t) mod 12 <> 0 ->
  (forall a, expected_number_of_policies_IF policy assumption t = Ok a ->
             expected_renewal_expense_payment policy assumption t = Ok 0%R)
  /\ (forall e, expected_number_of_policies_IF policy assumption t = Raise e ->
                expected_renewal_expense_payment policy assumption t = Raise e).
Proof.
  intros Hoff. unfold expected_renewal_expense_payment.
  rewrite renewal_expense_off_anniversary by assumption. cbn [bind].
  split.
  - intros a ->. cbn [bind]. f_equal. ring.
  - intros e ->. reflexivity.
Qed.

Lemma expected_renewal_expense_off_anniversary_witness :
  expected_renewal_expense_payment sample_policy sample_assumption 1
  = Ok 0%R
  /\ expected_renewal_expense_payment sample_policy empty_assumption 1
     = Raise (LookupError "mortality_base_table").
Proof.
  split.
  - destruct (in_force_unit sample_policy sample_assumption 1
                (fun u _ => sample_mortality_valid u)) as [a [Ha _]].
    apply (proj1 (expected_renewal_expense_off_anniversary sample_policy
                    sample_assumption 1 ltac:(discriminate)) a Ha).
  - apply (proj2 (expected_renewal_expense_off_anniversary sample_policy
                    empty_assumption 1 ltac:(discriminate))).
    reflexivity.
Defined.

(** *** Monthly conversion of annual rates *)

Lemma Rpower_twelfth_pow (x : R) :
  (0 < x)%R -> (Rpower x (/ 12) ^ 12 = x)%R.
Proof.
  intros Hx.
  rewrite <- (Rpower_pow 12) by (unfold Rpower; apply exp_pos).
  rewrite Rpower_mult.
  replace (/ 12 * INR 12)%R with 1%R by (simpl; field).
  now apply Rpower_1.
Qed.

Lemma Rpower_twelfth_ge_1 (x : R) :
  (1 <= x)%R -> (1 <= Rpower x (/ 12))%R.
Proof.
  intros Hx. unfold Rpower. rewrite <- exp_0 at 1.
  destruct (Rle_lt_or_eq_dec 1 x Hx) as [Hlt | <-].
  - left. apply exp_increasing.
    pose proof (ln_increasing 1 x ltac:(lra) Hlt) as Hln.
    rewrite ln_1 in Hln. lra.
  - rewrite ln_1, Rmult_0_r. lra.
Qed.

(** The twelfth power of [x ** (1 / 12)] is [x] again. *)
Lemma pow_twelfth_root (x : R) :
  (0 <= x)%R ->
  exists r, pow_twelfth x = PyFloat r /\ (0 <= r)%R /\ (r ^ 12 = x)%R.
Proof.
  intros Hx. unfold pow_twelfth.
  destruct (Rlt_dec x 0) as [Hneg | _]; [lra |].
  destruct (Req_dec_T x 0) as [-> | Hnz].
  - exists 0%R. repeat split; [lra | cbn; ring].
  - exists (Rpower x (/ 12)). repeat split.
    + left. unfold Rpower. apply exp_pos.
    + apply Rpower_twelfth_pow. lra.
Qed.

Lemma mapM_nth {A B : Type} (f : A -> result B) (l : list A) (bs : list B)
  (t : nat) (a : A) :
  mapM f l = Ok bs -> nth_error l t = Some a ->
  exists b, nth_error bs t = Some b /\ f a = Ok b.
Proof.
  revert bs t. induction l as [| a0 l IH]; intros bs t; cbn [mapM].
  - intros _. destruct t; discriminate.
  - destruct (f a0) as [b0 | e |] eqn:H0; cbn [bind]; try discriminate.
    destruct (mapM f l) as [bs' | e |]; cbn [bind]; try discriminate.
    intros [= <-]. destruct t as [| t]; cbn [nth_error].
    + intros [= <-]. eauto.
    + now apply IH.
Qed.

(** X17.  When the yield curve holds a non-negative yield for every month
    of the horizon, [discount_rate] has [T + 1] entries, and the entry of
    month [t] is a real factor [v >= 1] whose twelfth power is
    [1 + yield(t)] (in exact arithmetic): twelve months at the monthly
    factor compound to the annual one.  When a month of the horizon has no
    yield, [discount_rate] raises. *)
Theorem discount_rate_factors (assumption : Assumption) (projection_length : nat) :
  ((forall t, (t <= projection_length)%nat ->
              exists y, assumption.(yield_curve_forward) (Z.of_nat t) = Some y
                        /\ (0 <= y)%R) ->
   exists rates,
     discount_rate assumption projection_length = Ok rates
     /\ List.length rates = (projection_length + 1)%nat
     /\ forall t y,
          (t <= projection_length)%nat ->
          assumption.(yield_curve_forward) (Z.of_nat t) = Some y ->
          exists v, nth_error rates t = Some (PyFloat v)
                    /\ (1 <= v)%R /\ (v ^ 12 = 1 + y)%R)
  /\ (forall t,
         (t <= projection_length)%nat ->
         assumption.(yield_curve_forward) (Z.of_nat t) = None ->
         exists e, discount_rate assumption projection_length = Raise e).
Proof.
  split.
  - intros Hyield. unfold discount_rate.
    destruct (mapM_defined
                (fun t => rate <- lookup "yield_curve_forward"
                                    (assumption.(yield_curve_forward)
                                       (Z.of_nat t)) ;;
                          Ok (pow_twelfth (1 + rate)))
                (seq 0 (projection_length + 1))) as [rates Hrates].
    { intros t Ht. apply in_seq in Ht.
      destruct (Hyield t ltac:(lia)) as (y & -> & _). cbn. eauto. }
    exists rates. split; [| split].
    + rewrite Hrates. cbn [bind].
      rewrite existsb_complex_false; [reflexivity |].
      apply (mapM_Forall _ _ _ _ Hrates).
      intros t b Ht. apply in_seq in Ht.
      destruct (Hyield t ltac:(lia)) as (y & -> & Hy).
      cbn [lookup bind]. intros [= <-]. apply pow_twelfth_real. lra.
    + apply mapM_length in Hrates. now rewrite length_seq in Hrates.
    + intros t y Ht Hy.
      destruct (mapM_nth _ _ _ t t Hrates) as (b & Hb & Hfb).
      { rewrite nth_error_seq.
        destruct (Nat.ltb_spec t (projection_length + 1)); [reflexivity | lia]. }
      rewrite Hy in Hfb. cbn [lookup bind] in Hfb. injection Hfb as <-.
      destruct (Hyield t Ht) as (y' & Hy' & Hy0).
      rewrite Hy in Hy'. injection Hy' as <-.
      unfold pow_twelfth in *.
      destruct (Rlt_dec (1 + y) 0) as [Hneg | _]; [lra |].
      destruct (Req_dec_T (1 + y) 0) as [Hz | _]; [lra |].
      exists (Rpower (1 + y) (/ 12)). split; [exact Hb | split].
      * apply Rpower_twelfth_ge_1. lra.
      * apply Rpower_twelfth_pow. lra.
  - intros t Ht Hnone. unfold discount_rate.
    destruct (mapM_raises
                (fun t => rate <- lookup "yield_curve_forward"
                                    (assumption.(yield_curve_forward)
                                       (Z.of_nat t)) ;;
                          Ok (pow_twelfth (1 + rate)))
                (seq 0 (projection_length + 1)) t
                (LookupError "yield_curve_forward")) as [e ->].
    + intros x _. cbv beta.
      destruct (yield_curve_forward assumption (Z.of_nat x));
        cbn [lookup bind]; discriminate.
    + apply in_seq. lia.
    + now rewrite Hnone.
    + cbn [bind]. eauto.
Qed.

Lemma discount_rate_factors_witness :
  (exists rates,
      discount_rate sample_assumption 24 = Ok rates
      /\ List.length rates = (24 + 1)%nat)
  /\ exists e, discount_rate empty_assumption 24 = Raise e.
Proof.
  split.
  - destruct (proj1 (discount_rate_factors sample_assumption 24))
      as (rates & Hrates & Hlen & _).
    + intros t _. exists (3 / 100)%R. split; [reflexivity | lra].
    + exists rates. split; assumption.
  - apply (proj2 (discount_rate_factors empty_assumption 24) 0%nat).
    + repeat constructor.
    + reflexivity.
Defined.

Section AnnualSurvival.

Variable policy : Policy.
Variable assumption : Assumption.

(** A run of months with one death rate [q] decays geometrically. *)
Lemma in_force_constant_rate (t n : nat) (a q : R) :
  expected_number_of_policies_IF policy assumption t = Ok a ->
  (forall k, (k < n)%nat -> death_rate policy assumption (t + k) = Ok q) ->
  expected_number_of_policies_IF policy assumption (t + n)
  = Ok (a * (1 - q) ^ n)%R.
Proof.
  intros Ha. induction n as [| n IH]; intros Hq.
  - rewrite Nat.add_0_r, Ha. f_equal. cbn. ring.
  - rewrite Nat.add_succ_r. cbn [expected_number_of_policies_IF].
    rewrite IH by (intros k Hk; apply Hq; lia).
    rewrite Hq by lia. cbn [bind pow]. f_equal. ring.
Qed.

(** With an overlay factor of 1 the monthly rate is the complement of
    the twelfth root of the annual survival probability. *)
Lemma death_rate_monthly (t : nat) (q : R) :
  current_age policy t <= assumption.(max_mortality_age) ->
  assumption.(mortality_base_table) (current_age policy t) (sex_key policy)
  = Some q ->
  (0 <= q <= 1)%R ->
  assumption.(mortality_overlay) (sex_key policy) = Some 1%R ->
  exists m, death_rate policy assumption t = Ok m
            /\ ((1 - m) ^ 12 = 1 - q)%R.
Proof.
  intros Hage Hq Hq01 Hoverlay.
  rewrite death_rate_unfold. unfold death_rate_lookup.
  destruct (Z.leb_spec (current_age policy t) (max_mortality_age assumption));
    [| lia].
  rewrite Hq. unfold mortality_overlay_factor. rewrite Hoverlay.
  cbn [lookup bind].
  destruct (pow_twelfth_root (1 - q)) as (r & -> & Hr0 & Hr12); [lra |].
  cbn [sub mul min_].
  destruct (Rlt_dec ((1 - r) * 1) 1) as [Hlt | Hge].
  - eexists. split; [reflexivity |].
    replace (1 - (1 - r) * 1)%R with r by ring. exact Hr12.
  - exists 1%R. split; [reflexivity |].
    assert (r = 0)%R as -> by lra.
    rewrite <- Hr12. ring.
Qed.

End AnnualSurvival.

(** X18.  With an overlay factor of 1, over a policy year that starts at
    a month [t] with [duration_IF + t] a multiple of 12, at an age within
    [max_mortality_age] whose table rate is [q] in [0, 1], the in-force
    count is multiplied by exactly [1 - q] (in exact arithmetic): the
    twelve monthly decrements reproduce the annual table rate. *)
Theorem in_force_annual_survival
  (policy : Policy) (assumption : Assumption) (t : nat) (q a : R) :
  0 <= policy.(age_at_entry) * 12 + policy.(duration_IF) ->
  (policy.(duration_IF) + Z.of_nat t) mod 12 = 0 ->
  current_age policy t <= assumption.(max_mortality_age) ->
  assumption.(mortality_base_table) (current_age policy t) (sex_key policy)
  = Some q ->
  (0 <= q <= 1)%R ->
  assumption.(mortality_overlay) (sex_key policy) = Some 1%R ->
  expected_number_of_policies_IF policy assumption t = Ok a ->
  expected_number_of_policies_IF policy assumption (t + 12)
  = Ok (a * (1 - q))%R.
Proof.
  intros Hstart Hanniv Hage Hq Hq01 Hoverlay Ha.
  destruct (death_rate_monthly policy assumption t q Hage Hq Hq01 Hoverlay)
    as (m & Hm & Hm12).
  rewrite (in_force_constant_rate policy assumption t 12 a m Ha).
  - now rewrite Hm12.
  - intros k Hk. rewrite <- Hm.
    rewrite !death_rate_unfold. apply death_rate_lookup_same_age.
    pose proof (fun u => current_age_direct policy u Hstart) as Hclosed.
    rewrite !Hclosed. rewrite Nat2Z.inj_add.
    Z.div_mod_to_equations. lia.
Qed.

Lemma in_force_annual_survival_witness :
  expected_number_of_policies_IF sample_policy sample_assumption (0 + 12)
  = Ok (1 * (1 - 1 / 100))%R.
Proof.
  apply (in_force_annual_survival sample_policy sample_assumption 0);
    try reflexivity; try discriminate.
  lra.
Defined.

(** *** Investment expenses *)

(** X19.  Given a discounting primitive that returns one present value
    per cash flow, the investment expense of a month [t] of the horizon is
    [(EPV_annuity_benefit(t) + EPV_renewal_expenses(t)) *
    investment_expense_rate]; it raises exactly when one of the two present
    value series does, with that series' error. *)
Theorem investment_expense_on_gross_liability
  (policy : Policy) (assumption : Assumption) (projection_length : nat)
  (discount : list R -> list pynum -> list R) (t : nat) :
  (forall cash_flows factors,
      List.length factors = List.length cash_flows ->
      List.length (discount cash_flows factors) = List.length cash_flows) ->
  (t <= projection_length)%nat ->
  investment_expense_payment policy assumption projection_length discount t
  = (benefit <- at_t (EPV_annuity_benefit policy assumption projection_length
                        discount) t ;;
     renewal <- at_t (EPV_renewal_expenses policy assumption projection_length
                        discount) t ;;
     Ok ((benefit + renewal) * assumption.(investment_expense))%R).
Proof.
  intros Hlen Ht. unfold investment_expense_payment, EPV_liability_gross.
  cbv zeta.
  rewrite (at_t_np_add _ _ (projection_length + 1) t);
    [| now apply EPV_annuity_benefit_length
     | now apply EPV_renewal_expenses_length | lia].
  destruct (at_t (EPV_annuity_benefit _ _ _ _) t);
    [| reflexivity | reflexivity].
  destruct (at_t (EPV_renewal_expenses _ _ _ _) t); reflexivity.
Qed.

Lemma investment_expense_on_gross_liability_witness :
  investment_expense_payment sample_policy sample_assumption 24
    discount_contract 3
  = (benefit <- at_t (EPV_annuity_benefit sample_policy sample_assumption 24
                        discount_contract) 3 ;;
     renewal <- at_t (EPV_renewal_expenses sample_policy sample_assumption 24
                        discount_contract) 3 ;;
     Ok ((benefit + renewal) * (1 / 1000))%R).
Proof.
  apply (investment_expense_on_gross_liability sample_policy
           sample_assumption 24 discount_contract 3).
  - intros cash_flows factors _. apply discount_contract_length.
  - repeat constructor.
Defined.

(** *** The whole projection *)

(** X20.  The projection over the horizon [0 .. T] runs without an
    error and [liability] has a value when: the payment frequency is not 0
    and the escalation type is supported; at every month [u <= T] where
    [current_age(u)] is within [max_mortality_age] the base table holds a
    rate in [0, 1] for that age and the overlay table a factor that is not
    negative; the inflation keys [0 .. T - 12] are present; every month
    [t <= T] has a yield above -1; both expense entries are present;
    and the discounting primitive returns one present value per cash
    flow. *)
Theorem liability_has_value
  (policy : Policy) (assumption : Assumption) (projection_length : nat)
  (discount : list R -> list pynum -> list R) :
  (forall cash_flows factors,
      List.length factors = List.length cash_flows ->
      List.length (discount cash_flows factors) = List.length cash_flows) ->
  policy.(annuity_payment_frequency) <> 0 ->
  policy.(escalation_type) = 0 \/ policy.(escalation_type) = 1
  \/ policy.(escalation_type) = 2 ->
  (forall u, (u <= projection_length)%nat ->
             mortality_valid_at policy assumption u) ->
  (forall k, 0 <= k <= Z.of_nat projection_length - 12 ->
             exists r, assumption.(inflation_forward) k = Some r) ->
  (forall t, (t <= projection_length)%nat ->
             exists y, assumption.(yield_curve_forward) (Z.of_nat t) = Some y
                       /\ (-1 < y)%R) ->
  (exists r, assumption.(expense_renewal_expense) = Some r) ->
  (exists r, assumption.(expense_inflation_margin) = Some r) ->
  exists v, liability policy assumption projection_length discount = Ok v.
Proof. apply liability_defined. Qed.

Lemma liability_has_value_witness :
  exists v,
    liability indexed_policy sample_assumption 36 discount_contract = Ok v.
Proof.
  apply (liability_has_value indexed_policy sample_assumption 36
           discount_contract).
  - intros cash_flows factors _. apply discount_contract_length.
  - discriminate.
  - right. right. reflexivity.
  - intros u _ _. split.
    + exists (1 / 100)%R. split; [reflexivity | lra].
    + exists 1%R. split; [reflexivity | lra].
  - intros k _. eexists. reflexivity.
  - intros t _. exists (3 / 100)%R. split; [reflexivity | lra].
  - eexists. reflexivity.
  - eexists. reflexivity.
Defined.
